(** * Tour-of-Heroes GraphQL data-access service: a shallow embedding

    This development embeds [src/app/hero.service.ts] and proves properties
    of the seven operations of [HeroService].  [src/app/graphql.module.ts]
    only creates the Apollo client (endpoint and in-memory cache); the
    client is a parameter here.

    Modelling decisions, in the order of the file:

    - JavaScript strings are sequences of UTF-16 code units ([list N]); the
      string literals of the source are written [lit "..."].
    - JavaScript values are the JSON-shaped ones the service handles:
      [undefined], [null], booleans, integer-valued numbers, strings, arrays
      and plain objects (ordered own properties).  Numbers are integers
      ([Z]): every number the service touches is a GraphQL [Int] id.
    - A JavaScript expression either yields a value or throws
      ([Completion]); property reads on [undefined]/[null] and failed string
      conversions throw a [TypeError] object.
    - An RxJS observable, subscribed once, is the finite trace of what it
      delivered: the values in order and how it ended ([Completed],
      [Errored e], or [Open] when no terminal notification arrived).
    - The Apollo client is a parameter: a function from the call it receives
      to the trace of result envelopes it delivers.  Its error channel
      carries [ApolloError] objects.
    - The service's effects are threaded through a [World]: the messages
      held by the message service, the values passed to [console.error],
      and the calls issued to the Apollo client. *)

From Stdlib Require Import List String Ascii ZArith NArith Bool Lia.
From Stdlib Require Import DecimalString.
Import ListNotations.

Set Implicit Arguments.
Set Warnings "-register-all,-notation-for-abbreviation".

(** ** JavaScript strings *)

(** A string is its sequence of UTF-16 code units. *)
Definition jsstring : Type := list N.

(** A literal of the source text (ASCII). *)
Definition lit (s : string) : jsstring :=
  List.map N_of_ascii (list_ascii_of_string s).

Module JsString.

Definition t := jsstring.

Fixpoint eqb (a b : t) : bool :=
  match a, b with
  | [], [] => true
  | x :: a', y :: b' => N.eqb x y && eqb a' b'
  | _, _ => false
  end.

(** ECMAScript [WhiteSpace] and [LineTerminator] code points, the ones
    [String.prototype.trim] strips: TAB, VT, FF, SP, NBSP, ZWNBSP and the
    Unicode space separators; LF, CR, LS and PS. *)
Definition is_white_space (c : N) : bool :=
  match c with
  | 9%N | 10%N | 11%N | 12%N | 13%N | 32%N      (* TAB LF VT FF CR SP *)
  | 160%N                                       (* NBSP *)
  | 5760%N                                      (* U+1680 *)
  | 8232%N | 8233%N                             (* U+2028 LS, U+2029 PS *)
  | 8239%N | 8287%N | 12288%N                   (* U+202F U+205F U+3000 *)
  | 65279%N => true                             (* U+FEFF *)
  | _ => (8192 <=? c)%N && (c <=? 8202)%N       (* U+2000 .. U+200A *)
  end.

Fixpoint trimStart (s : t) : t :=
  match s with
  | c :: r => if is_white_space c then trimStart r else s
  | [] => []
  end.

Definition trimEnd (s : t) : t := rev (trimStart (rev s)).

(** [String.prototype.trim] *)
Definition trim (s : t) : t := trimEnd (trimStart s).

(** [haystack.startsWith(needle)] *)
Fixpoint startsWith (needle haystack : t) : bool :=
  match needle, haystack with
  | [], _ => true
  | x :: n', y :: h' => N.eqb x y && startsWith n' h'
  | _ :: _, [] => false
  end.

(** [haystack.includes(needle)] *)
Fixpoint includes (needle haystack : t) : bool :=
  startsWith needle haystack ||
  match haystack with
  | [] => false
  | _ :: h' => includes needle h'
  end.

(** Decimal rendering of an integer, as [Number.prototype.toString] gives
    for integer-valued numbers of the [Int] range. *)
Definition of_Z (z : Z) : t := lit (NilZero.string_of_int (Z.to_int z)).

(** The array index a property key denotes, if it is a canonical one
    ("0", "1", "12", ... without sign or leading zero). *)
Fixpoint digits_value (acc : N) (s : t) : option N :=
  match s with
  | [] => Some acc
  | c :: r =>
      if ((48 <=? c) && (c <=? 57))%N
      then digits_value (acc * 10 + (c - 48))%N r
      else None
  end.

Definition array_index (key : t) : option nat :=
  match key with
  | [] => None
  | _ =>
      match digits_value 0%N key with
      | Some n => if eqb (of_Z (Z.of_N n)) key then Some (N.to_nat n) else None
      | None => None
      end
  end.

End JsString.

(** ** JavaScript values and the operations the service applies to them *)

Inductive JsValue : Type :=
| JUndefined
| JNull
| JBool (b : bool)
| JNumber (n : Z)
| JString (s : jsstring)
| JArray (elements : list JsValue)
| JObject (properties : list (jsstring * JsValue)).

(** The result of evaluating an expression: a value, or a thrown value. *)
Inductive Completion (A : Type) : Type :=
| Normal (a : A)
| Throw (error : JsValue).
Arguments Normal {A} a.
Arguments Throw {A} error.

Module Js.

Definition bind {A B} (c : Completion A) (k : A -> Completion B) : Completion B :=
  match c with
  | Normal a => k a
  | Throw e => Throw e
  end.

(** Own property lookup in a plain object. *)
Fixpoint lookup (key : jsstring) (properties : list (jsstring * JsValue))
  : option JsValue :=
  match properties with
  | [] => None
  | (k, v) :: rest => if JsString.eqb k key then Some v else lookup key rest
  end.

(** A [TypeError] instance, as far as the service can observe it: the
    service reads [message] only. *)
Definition TypeError (message : jsstring) : JsValue :=
  JObject [(lit "name", JString (lit "TypeError"));
           (lit "message", JString message)].

Definition describe_nullish (v : JsValue) : jsstring :=
  match v with
  | JNull => lit "null"
  | _ => lit "undefined"
  end.

(** The text of the engine's message for a property read on
    [undefined]/[null] (V8's wording; the statements below refer to it
    through this name). *)
Definition cannot_read (key : jsstring) (base : JsValue) : jsstring :=
  (lit "Cannot read property '" ++ key ++ lit "' of " ++ describe_nullish base)%list.

(** [base.key] / [base[key]].  Inherited prototype members are not
    modelled: none of the keys the service reads ([heroes], [hero],
    [search], [addHero], [deleteHero], [updateHero], [id], [message], [0])
    names one on an object, array, number or boolean, and [search] (a
    method of strings) is read from [data] only, which is a mapping or
    [null]. *)
Definition Get (base : JsValue) (key : jsstring) : Completion JsValue :=
  match base with
  | JUndefined | JNull => Throw (TypeError (cannot_read key base))
  | JObject properties =>
      Normal (match lookup key properties with
              | Some v => v
              | None => JUndefined
              end)
  | JArray elements =>
      Normal (match JsString.array_index key with
              | Some i => nth i elements JUndefined
              | None =>
                  if JsString.eqb key (lit "length")
                  then JNumber (Z.of_nat (List.length elements))
                  else JUndefined
              end)
  | JString s =>
      Normal (match JsString.array_index key with
              | Some i =>
                  match nth_error s i with
                  | Some c => JString [c]
                  | None => JUndefined
                  end
              | None =>
                  if JsString.eqb key (lit "length")
                  then JNumber (Z.of_nat (List.length s))
                  else JUndefined
              end)
  | JBool _ | JNumber _ => Normal JUndefined
  end.

(** [ToBoolean]: the truthiness used by [!x] and [x ? a : b]. *)
Definition ToBoolean (v : JsValue) : bool :=
  match v with
  | JUndefined | JNull => false
  | JBool b => b
  | JNumber n => negb (Z.eqb n 0)
  | JString s => match s with [] => false | _ => true end
  | JArray _ | JObject _ => true
  end.

(** [ToString], the conversion a template literal applies to each
    substitution.  A plain object renders as "[object Object]" unless an
    own, non-callable [toString] property shadows the inherited method, in
    which case the conversion throws; an array joins its elements with
    commas, [undefined] and [null] elements rendering as empty. *)
Fixpoint ToString (v : JsValue) : Completion jsstring :=
  match v with
  | JUndefined => Normal (lit "undefined")
  | JNull => Normal (lit "null")
  | JBool true => Normal (lit "true")
  | JBool false => Normal (lit "false")
  | JNumber n => Normal (JsString.of_Z n)
  | JString s => Normal s
  | JArray elements =>
      (fix join (xs : list JsValue) : Completion jsstring :=
         match xs with
         | [] => Normal []
         | x :: rest =>
             bind (match x with
                   | JUndefined | JNull => Normal []
                   | _ => ToString x
                   end)
                  (fun s =>
                     match rest with
                     | [] => Normal s
                     | _ => bind (join rest)
                              (fun r => Normal (s ++ lit "," ++ r)%list)
                     end)
         end) elements
  | JObject properties =>
      match lookup (lit "toString") properties with
      | Some _ => Throw (TypeError (lit "Cannot convert object to primitive value"))
      | None => Normal (lit "[object Object]")
      end
  end.

End Js.

(** ** The GraphQL documents of [hero.service.ts] *)

Inductive OperationType := query | mutation.

(** [$name: type] or [$name: type!] *)
Record VariableDefinition := {
  variable : jsstring;
  type_name : jsstring;
  non_null : bool
}.

(** The single root field of an operation: its name, its arguments (each
    bound to a variable) and the sub-fields it selects. *)
Record Field := {
  field_name : jsstring;
  arguments : list (jsstring * jsstring);
  selection : list jsstring
}.

Record DocumentNode := {
  operation : OperationType;
  operation_name : jsstring;
  variable_definitions : list VariableDefinition;
  root : Field
}.

Module Gql.

Definition id_name : list jsstring := [lit "id"; lit "name"].

Definition heroesQuery : DocumentNode :=
  {| operation := query;
     operation_name := lit "heroesQuery";
     variable_definitions := [];
     root := {| field_name := lit "heroes"; arguments := [];
                selection := id_name |} |}.

Definition heroQuery : DocumentNode :=
  {| operation := query;
     operation_name := lit "heroQuery";
     variable_definitions :=
       [ {| variable := lit "id"; type_name := lit "Int"; non_null := true |} ];
     root := {| field_name := lit "hero";
                arguments := [(lit "id", lit "id")];
                selection := id_name |} |}.

Definition searchQuery : DocumentNode :=
  {| operation := query;
     operation_name := lit "searchQuery";
     variable_definitions :=
       [ {| variable := lit "q"; type_name := lit "String"; non_null := false |} ];
     root := {| field_name := lit "search";
                arguments := [(lit "q", lit "q")];
                selection := id_name |} |}.

Definition addHero : DocumentNode :=
  {| operation := mutation;
     operation_name := lit "addHero";
     variable_definitions :=
       [ {| variable := lit "input"; type_name := lit "HeroInput";
            non_null := false |} ];
     root := {| field_name := lit "addHero";
                arguments := [(lit "input", lit "input")];
                selection := id_name |} |}.

Definition deleteHero : DocumentNode :=
  {| operation := mutation;
     operation_name := lit "deleteHero";
     variable_definitions :=
       [ {| variable := lit "id"; type_name := lit "Int"; non_null := true |} ];
     root := {| field_name := lit "deleteHero";
                arguments := [(lit "id", lit "id")];
                selection := [] |} |}.

Definition updateHero : DocumentNode :=
  {| operation := mutation;
     operation_name := lit "updateHero";
     variable_definitions :=
       [ {| variable := lit "id"; type_name := lit "Int"; non_null := true |};
         {| variable := lit "input"; type_name := lit "HeroInput";
            non_null := false |} ];
     root := {| field_name := lit "updateHero";
                arguments := [(lit "id", lit "id"); (lit "input", lit "input")];
                selection := id_name |} |}.

(** The variables a document declares as required ([!]). *)
Definition required_variables (d : DocumentNode) : list jsstring :=
  List.map variable (List.filter non_null (variable_definitions d)).

End Gql.

(** ** The Apollo client, as the service sees it *)

(** The options object handed to [apollo.watchQuery] or [apollo.mutate].
    [variables] is [JUndefined] when the options carry no such key. *)
Inductive GatewayCall :=
| WatchQuery (document : DocumentNode) (variables : JsValue)
| Mutate (document : DocumentNode) (variables : JsValue).

Definition document_of (call : GatewayCall) : DocumentNode :=
  match call with
  | WatchQuery d _ | Mutate d _ => d
  end.

(** A result envelope; [data] is a mapping or [null] ([None]).  The service
    reads [data] and nothing else. *)
Record Envelope := {
  data : option (list (jsstring * JsValue));
  errors : list JsValue
}.

(** [result.data] as a value. *)
Definition data_value (result : Envelope) : JsValue :=
  match data result with
  | Some properties => JObject properties
  | None => JNull
  end.

(** What the client's error channel carries: the client wraps every
    network or GraphQL error in an [ApolloError], an [Error] instance with a
    string [message]. *)
Record ApolloError := { message : jsstring }.

Definition error_value (e : ApolloError) : JsValue :=
  JObject [(lit "name", JString (lit "Error"));
           (lit "message", JString (message e))].

Inductive Outcome :=
| Done                         (* the stream completed *)
| Failed (error : ApolloError) (* the stream errored *)
| Live.                        (* still subscribed, nothing terminal yet *)

(** What one subscription to the client's stream delivers. *)
Record Response := {
  results : list Envelope;
  outcome : Outcome
}.

Definition Gateway := GatewayCall -> Response.

(** ** Effects *)

Record World := {
  messages : list jsstring;      (* messageService.messages *)
  console : list JsValue;        (* arguments of console.error *)
  requests : list GatewayCall    (* calls received by the Apollo client *)
}.

Definition State (A : Type) : Type := World -> A * World.

Module St.

Definition ret {A} (a : A) : State A := fun w => (a, w).

Definition bind {A B} (m : State A) (k : A -> State B) : State B :=
  fun w => let (a, w') := m w in k a w'.

End St.

(** A statement sequence that may throw: effects made before the throw
    stay. *)
Definition JS (A : Type) : Type := State (Completion A).

Module Stmt.

Definition ret {A} (a : A) : JS A := St.ret (Normal a).

Definition bind {A B} (m : JS A) (k : A -> JS B) : JS B :=
  St.bind m (fun c => match c with
                      | Normal a => k a
                      | Throw e => St.ret (Throw e)
                      end).

(** An effect-free expression. *)
Definition eval {A} (c : Completion A) : JS A := St.ret c.

(** An effect that cannot throw. *)
Definition exec {A} (m : State A) : JS A :=
  St.bind m (fun a => St.ret (Normal a)).

End Stmt.

Declare Scope state_scope.
Delimit Scope state_scope with state.
Notation "x <- m ;; k" := (St.bind m (fun x => k))
  (at level 61, m at next level, right associativity) : state_scope.
Notation "m >>= k" := (St.bind m k)
  (at level 58, left associativity) : state_scope.

Declare Scope js_scope.
Delimit Scope js_scope with js.
Notation "x <- m ;; k" := (Stmt.bind m (fun x => k))
  (at level 61, m at next level, right associativity) : js_scope.
Notation "m ;; k" := (Stmt.bind m (fun _ => k))
  (at level 61, right associativity) : js_scope.

(** ** RxJS observables and the three operators the service pipes through *)

Inductive Ending :=
| Completed
| Errored (error : JsValue)
| Open.

Record Observable (A : Type) := {
  values : list A;
  ending : Ending
}.

Module Rx.

(** [of(v1, ..., vn)] ([of] is reserved here) *)
Definition of_ {A} (vs : list A) : Observable A :=
  {| values := vs; ending := Completed |}.

(** Values pass through [project] in order; the first throw ends the
    stream with that error and drops what the source had left. *)
Fixpoint project_all {A B} (project : A -> Completion B) (xs : list A)
  (source_ending : Ending) : Observable B :=
  match xs with
  | [] => {| values := []; ending := source_ending |}
  | x :: rest =>
      match project x with
      | Normal y =>
          let o := project_all project rest source_ending in
          {| values := y :: values o; ending := ending o |}
      | Throw e => {| values := []; ending := Errored e |}
      end
  end.

(** [map(project)] *)
Definition map {A B} (project : A -> Completion B) (source : Observable A)
  : State (Observable B) :=
  St.ret (project_all project (values source) (ending source)).

(** The side effect runs on each value before it is passed on; a throw
    ends the stream with that error, the value is not passed on. *)
Fixpoint observe_all {A} (next : A -> JS unit) (xs : list A)
  (source_ending : Ending) : State (Observable A) :=
  match xs with
  | [] => St.ret {| values := []; ending := source_ending |}
  | x :: rest =>
      (c <- next x ;;
       match c with
       | Normal _ =>
           o <- observe_all next rest source_ending ;;
           St.ret {| values := x :: values o; ending := ending o |}
       | Throw e => St.ret {| values := []; ending := Errored e |}
       end)%state
  end.

(** [tap(next)] *)
Definition tap {A} (next : A -> JS unit) (source : Observable A)
  : State (Observable A) :=
  observe_all next (values source) (ending source).

(** [catchError(selector)]: when the source errors, the stream continues
    with the observable the selector returns; if the selector itself
    throws, the stream errors with what it threw. *)
Definition catchError {A} (selector : JsValue -> JS (Observable A))
  (source : Observable A) : State (Observable A) :=
  match ending source with
  | Errored e =>
      (c <- selector e ;;
       match c with
       | Normal o =>
           St.ret {| values := values source ++ values o; ending := ending o |}
       | Throw e' =>
           St.ret {| values := values source; ending := Errored e' |}
       end)%state
  | _ => St.ret source
  end.

End Rx.

(** ** The service *)

(** Modelled from the spec: [hero.ts] is not among the sources; section 3
    gives the record as [{ id: integer, name: string }], which is also how
    the service uses it ([hero.id], [hero.name]). *)
Record Hero := {
  id : Z;
  name : jsstring
}.

Definition hero_value (h : Hero) : JsValue :=
  JObject [(lit "id", JNumber (id h)); (lit "name", JString (name h))].

(** The argument of [deleteHero]: [Hero | number]. *)
Inductive HeroOrNumber :=
| AsHero (hero : Hero)
| AsNumber (n : Z).

(** The double-quote character (U+0022) inside a template literal. *)
Definition dquote : jsstring := [34%N].

(** What a subscriber of the client's stream observes. *)
Definition delivered (r : Response) : Observable Envelope :=
  {| values := results r;
     ending := match outcome r with
               | Done => Completed
               | Failed e => Errored (error_value e)
               | Live => Open
               end |}.

Module HeroService.

(** Modelled from the spec: [message.service.ts] is not among the sources;
    the sink has the single capability [record(message)], which keeps the
    message.  This is [messageService.add(message)]. *)
Definition messageService_add (message : jsstring) : State unit :=
  fun w => (tt, {| messages := messages w ++ [message];
                   console := console w;
                   requests := requests w |}).

(** [console.error(error)] *)
Definition console_error (error : JsValue) : State unit :=
  fun w => (tt, {| messages := messages w;
                   console := console w ++ [error];
                   requests := requests w |}).

(** Log a HeroService message with the MessageService. *)
Definition log (message : jsstring) : State unit :=
  messageService_add (lit "HeroService: " ++ message).

(** Handle an operation that failed; let the app continue.  [result]
    is [JUndefined] where the call site omits it. *)
Definition handleError (operation : jsstring) (result : JsValue)
  : JsValue -> JS (Observable JsValue) :=
  fun error =>
    (Stmt.exec (console_error error) ;;
     detail <- Stmt.eval (Js.Get error (lit "message")) ;;
     text <- Stmt.eval (Js.ToString detail) ;;
     Stmt.exec (log (operation ++ lit " failed: " ++ text)) ;;
     Stmt.ret (Rx.of_ [result]))%js.

Section WithClient.

Variable apollo : Gateway.

(** The client receives [call] and the caller subscribes, once, to the
    stream it returns. *)
Definition subscribe (call : GatewayCall) : State (Observable Envelope) :=
  fun w =>
    (delivered (apollo call),
     {| messages := messages w;
        console := console w;
        requests := requests w ++ [call] |}).

(** [apollo.watchQuery({query, variables}).valueChanges] *)
Definition watchQuery (query : DocumentNode) (variables : JsValue)
  : State (Observable Envelope) :=
  subscribe (WatchQuery query variables).

(** [apollo.mutate({mutation, variables})] *)
Definition mutate (mutation : DocumentNode) (variables : JsValue)
  : State (Observable Envelope) :=
  subscribe (Mutate mutation variables).

(** GET heroes from the server *)
Definition getHeroes : State (Observable JsValue) :=
  (watchQuery Gql.heroesQuery JUndefined
   >>= Rx.map (fun result => Js.Get (data_value result) (lit "heroes"))
   >>= Rx.tap (fun heroes => Stmt.exec (log (lit "fetched heroes")))
   >>= Rx.catchError (handleError (lit "getHeroes") (JArray [])))%state.

(** GET hero by id. Return `undefined` when id not found *)
Definition getHeroNo404 (id : Z) : State (Observable JsValue) :=
  (watchQuery Gql.heroQuery JUndefined
   >>= Rx.map (fun result =>
                 Js.bind (Js.Get (data_value result) (lit "heroes"))
                   (fun heroes => Js.Get heroes (lit "0")))
   >>= Rx.tap (fun h =>
                 let outcome :=
                   if Js.ToBoolean h then lit "fetched" else lit "did not find" in
                 Stmt.exec (log (outcome ++ lit " hero id=" ++ JsString.of_Z id)))
   >>= Rx.catchError
         (handleError (lit "getHero id=" ++ JsString.of_Z id) JUndefined))%state.

(** GET hero by id. Will 404 if id not found *)
Definition getHero (id : Z) : State (Observable JsValue) :=
  (watchQuery Gql.heroQuery (JObject [(lit "id", JNumber id)])
   >>= Rx.map (fun result => Js.Get (data_value result) (lit "hero"))
   >>= Rx.tap (fun h =>
                 let outcome :=
                   if Js.ToBoolean h then lit "fetched" else lit "did not find" in
                 Stmt.exec (log (outcome ++ lit " hero id=" ++ JsString.of_Z id)))
   >>= Rx.catchError
         (handleError (lit "getHero id=" ++ JsString.of_Z id) JUndefined))%state.

(** GET heroes whose name contains search term *)
Definition searchHeroes (term : jsstring) : State (Observable JsValue) :=
  if negb (Js.ToBoolean (JString (JsString.trim term))) then
    (* if not search term, return empty hero array. *)
    St.ret (Rx.of_ [JArray []])
  else
    (watchQuery Gql.searchQuery (JObject [(lit "q", JString term)])
     >>= Rx.map (fun result => Js.Get (data_value result) (lit "search"))
     >>= Rx.tap (fun _ =>
                   Stmt.exec (log (lit "found heroes matching "
                                     ++ dquote ++ term ++ dquote)))
     >>= Rx.catchError (handleError (lit "searchHeroes") (JArray [])))%state.

(** POST: add a new hero to the server *)
Definition addHero (hero : Hero) : State (Observable JsValue) :=
  (mutate Gql.addHero
     (JObject [(lit "input", JObject [(lit "name", JString (name hero))])])
   >>= Rx.map (fun result => Js.Get (data_value result) (lit "addHero"))
   >>= Rx.tap (fun hero =>
                 (hero_id <- Stmt.eval (Js.Get hero (lit "id")) ;;
                  text <- Stmt.eval (Js.ToString hero_id) ;;
                  Stmt.exec (log (lit "added hero w/ id=" ++ text)))%js)
   >>= Rx.catchError (handleError (lit "addHero") JUndefined))%state.

(** DELETE: delete the hero from the server *)
Definition deleteHero (hero : HeroOrNumber) : State (Observable JsValue) :=
  let id := match hero with
            | AsNumber n => n
            | AsHero h => id h
            end in
  (mutate Gql.deleteHero (JObject [(lit "id", JNumber id)])
   >>= Rx.map (fun result => Js.Get (data_value result) (lit "deleteHero"))
   >>= Rx.tap (fun _ =>
                 Stmt.exec (log (lit "deleted hero id=" ++ JsString.of_Z id)))
   >>= Rx.catchError (handleError (lit "deleteHero") JUndefined))%state.

(** PUT: update the hero on the server *)
Definition updateHero (hero : Hero) : State (Observable JsValue) :=
  (mutate Gql.updateHero
     (JObject [(lit "id", JNumber (id hero));
               (lit "input", JObject [(lit "name", JString (name hero))])])
   >>= Rx.map (fun result => Js.Get (data_value result) (lit "updateHero"))
   >>= Rx.tap (fun _ =>
                 Stmt.exec (log (lit "updated hero id=" ++ JsString.of_Z (id hero))))
   >>= Rx.catchError (handleError (lit "addHero") JUndefined))%state.

End WithClient.

End HeroService.

(** ** Vocabulary of the specification *)

(** A call of one of the seven public operations. *)
Inductive Call :=
| GetHeroes
| GetHeroNo404 (id : Z)
| GetHero (id : Z)
| SearchHeroes (term : jsstring)
| AddHero (hero : Hero)
| DeleteHero (hero : HeroOrNumber)
| UpdateHero (hero : Hero).

Definition invoke (apollo : Gateway) (c : Call) : State (Observable JsValue) :=
  match c with
  | GetHeroes => HeroService.getHeroes apollo
  | GetHeroNo404 i => HeroService.getHeroNo404 apollo i
  | GetHero i => HeroService.getHero apollo i
  | SearchHeroes term => HeroService.searchHeroes apollo term
  | AddHero h => HeroService.addHero apollo h
  | DeleteHero h => HeroService.deleteHero apollo h
  | UpdateHero h => HeroService.updateHero apollo h
  end.

(** The name of the operation a call belongs to. *)
Definition method_name (c : Call) : jsstring :=
  match c with
  | GetHeroes => lit "getHeroes"
  | GetHeroNo404 _ => lit "getHeroNo404"
  | GetHero _ => lit "getHero"
  | SearchHeroes _ => lit "searchHeroes"
  | AddHero _ => lit "addHero"
  | DeleteHero _ => lit "deleteHero"
  | UpdateHero _ => lit "updateHero"
  end.

(** The default the specification documents for each operation: the empty
    sequence for list and search, the absent marker for the rest. *)
Definition documented_default (c : Call) : JsValue :=
  match c with
  | GetHeroes | SearchHeroes _ => JArray []
  | _ => JUndefined
  end.

(** A world in which nothing has happened yet. *)
Definition idle : World := {| messages := []; console := []; requests := [] |}.

(** An [Error]-like value: reading [message] yields a string. *)
Definition error_like (e : JsValue) : Prop :=
  exists m, Js.Get e (lit "message") = Normal (JString m).

(** A message that starts with the service's tag. *)
Definition prefixed (m : jsstring) : Prop :=
  JsString.startsWith (lit "HeroService: ") m = true.

(** The step from [w] to [w'] did nothing but record prefixed messages. *)
Record logs_only (w w' : World) : Prop := {
  same_console : console w' = console w;
  same_requests : requests w' = requests w;
  new_messages :
    exists added, messages w' = messages w ++ added /\ Forall prefixed added
}.

(** A projection whose throws are [Error]s. *)
Definition throws_errors {A B} (f : A -> Completion B) : Prop :=
  forall x e, f x = Throw e -> error_like e.

(** A side effect that only logs and whose throws are [Error]s. *)
Definition only_logs {A} (next : A -> JS unit) : Prop :=
  forall x w,
    logs_only w (snd (next x w)) /\
    forall e, fst (next x w) = Throw e -> error_like e.

(** An observable whose error, if any, is an [Error]. *)
Definition sound {A} (o : Observable A) : Prop :=
  forall e, ending o = Errored e -> error_like e.

(** The form of a failure diagnostic. *)
Definition failure_message (operation detail : jsstring) : jsstring :=
  lit "HeroService: " ++ operation ++ lit " failed: " ++ detail.

(** [env.data.field] is present and holds [v]. *)
Definition carries (field : jsstring) (v : JsValue) (env : Envelope) : Prop :=
  exists properties,
    data env = Some properties /\ Js.lookup field properties = Some v.

(** A full Hero record: an object whose [id] is a number and whose [name] is
    a string. *)
Definition is_hero (v : JsValue) : bool :=
  match v with
  | JObject properties =>
      match Js.lookup (lit "id") properties, Js.lookup (lit "name") properties with
      | Some (JNumber _), Some (JString _) => true
      | _, _ => false
      end
  | _ => false
  end.

Definition is_hero_sequence (v : JsValue) : bool :=
  match v with
  | JArray elements => forallb is_hero elements
  | _ => false
  end.

(** Modelled from the spec: the remote schema is not part of the sources at
    hand; this is the wire contract of its six operations (section 6), the
    payload each one returns under its root field: a sequence of Hero
    records for the listing and the search, a boolean or a number for
    [deleteHero], and for the single-record operations a Hero record or, as
    the valid answer for an absent record (section 7, case c), [null]. *)
Definition wire_payload (d : DocumentNode) (v : JsValue) : bool :=
  if JsString.eqb (operation_name d) (lit "heroesQuery") then is_hero_sequence v
  else if JsString.eqb (operation_name d) (lit "searchQuery") then is_hero_sequence v
  else if JsString.eqb (operation_name d) (lit "deleteHero") then
    match v with
    | JBool _ | JNumber _ => true
    | _ => false
    end
  else
    is_hero v || match v with JNull => true | _ => false end.

(** Modelled from the spec: an envelope of the wire contract holds, under
    [data], the root field of the operation and nothing else. *)
Definition conforms (d : DocumentNode) (env : Envelope) : Prop :=
  exists v, data env = Some [(field_name (root d), v)] /\ wire_payload d v = true.

(** A client all of whose envelopes follow the wire contract. *)
Definition wire_conformant (apollo : Gateway) : Prop :=
  forall call, Forall (conforms (document_of call)) (results (apollo call)).

(** What a caller may be handed when the client is wire-conformant: a
    sequence of full Hero records from the listing and the search; the
    acknowledgement or [undefined] from [deleteHero]; a full Hero record,
    [null] or [undefined] from the single-record operations. *)
Definition resolved_value_ok (c : Call) (v : JsValue) : Prop :=
  match c with
  | GetHeroes | SearchHeroes _ => is_hero_sequence v = true
  | DeleteHero _ =>
      v = JUndefined \/ (exists b, v = JBool b) \/ (exists n, v = JNumber n)
  | _ => is_hero v = true \/ v = JNull \/ v = JUndefined
  end.

(** The envelope [{ data: { field: v } }]. *)
Definition envelope (field : jsstring) (v : JsValue) : Envelope :=
  {| data := Some [(field, v)]; errors := [] |}.

(** A client whose every call fails with the given message, before any
    result. *)
Definition failing_gateway (detail : jsstring) : Gateway :=
  fun _ => {| results := []; outcome := Failed {| message := detail |} |}.

(** A client that answers every call with one envelope and completes. *)
Definition answering_gateway (env : Envelope) : Gateway :=
  fun _ => {| results := [env]; outcome := Done |}.

(** A client whose [updateHero] mutation echoes the record it was sent:
    [{ updateHero: { id: $id, name: $input.name } }]. *)
Definition echo_gateway : Gateway :=
  fun call =>
    match call with
    | Mutate d vars =>
        if JsString.eqb (operation_name d) (lit "updateHero") then
          match Js.Get vars (lit "id"),
                Js.bind (Js.Get vars (lit "input")) (fun i => Js.Get i (lit "name")) with
          | Normal i, Normal n =>
              {| results := [envelope (lit "updateHero")
                               (JObject [(lit "id", i); (lit "name", n)])];
                 outcome := Done |}
          | _, _ => {| results := []; outcome := Done |}
          end
        else {| results := []; outcome := Done |}
    | WatchQuery _ _ => {| results := []; outcome := Live |}
    end.

(** The variables [updateHero] sends for a hero. *)
Definition update_variables (i : Z) (n : jsstring) : JsValue :=
  JObject [(lit "id", JNumber i); (lit "input", JObject [(lit "name", JString n)])].

(** A client echoes updates when, for every id and name, its answer to the
    [updateHero] mutation is the single record [{id, name}] it was sent. *)
Definition echoes_updates (apollo : Gateway) : Prop :=
  forall i n,
    apollo (Mutate Gql.updateHero (update_variables i n)) =
    {| results := [envelope (lit "updateHero")
                     (JObject [(lit "id", JNumber i); (lit "name", JString n)])];
       outcome := Done |}.

(** A client that acknowledges every [deleteHero] mutation with [true] and
    has nothing to say to any other call. *)
Definition acknowledging_gateway : Gateway :=
  fun call =>
    let d := document_of call in
    if JsString.eqb (operation_name d) (lit "deleteHero")
    then {| results := [envelope (field_name (root d)) (JBool true)];
            outcome := Done |}
    else {| results := []; outcome := Done |}.

(** A client that answers the calls of the operation called [name] with the
    single payload [v] under the root field of their document, and has
    nothing to say to any other call. *)
Definition answering_only (name : jsstring) (v : JsValue) : Gateway :=
  fun call =>
    let d := document_of call in
    if JsString.eqb (operation_name d) name
    then {| results := [envelope (field_name (root d)) v]; outcome := Done |}
    else {| results := []; outcome := Done |}.

(** A client that answers [heroQuery] for id [7] with the record it holds
    and keeps the subscription open. *)
Definition bo : Hero := {| id := 7; name := lit "Bo" |}.

Definition hero_gateway : Gateway :=
  fun _ => {| results := [envelope (lit "hero") (hero_value bo)]; outcome := Live |}.

(** The invariant of section 3, read literally: whatever an operation hands
    to its caller is a full Hero record, a sequence of full Hero records, or
    an absence sentinel (the empty sequence or [undefined]). *)
Definition exposes_heroes_only (apollo : Gateway) (c : Call) : Prop :=
  forall w v,
    In v (values (fst (invoke apollo c w))) ->
    is_hero v = true \/ is_hero_sequence v = true \/ v = JUndefined.

(** What the recovery step appends when the client's stream fails. *)
Definition recovery_tail (fin : Outcome) (default : JsValue) : list JsValue :=
  match fin with
  | Failed _ => [default]
  | _ => []
  end.

(** How the stream handed to the caller ends when nothing throws on the
    way. *)
Definition recovered_ending (fin : Outcome) : Ending :=
  match fin with
  | Live => Open
  | _ => Completed
  end.

(** ** Vocabulary of the further properties *)

(** [w] with more messages, console entries and calls appended. *)
Definition extend (w : World) (ms : list jsstring) (cs : list JsValue)
           (rs : list GatewayCall) : World :=
  {| messages := messages w ++ ms;
     console := console w ++ cs;
     requests := requests w ++ rs |}.

(** A computation that only appends to the world, and whose result and
    appended entries are the same from whatever world it starts. *)
Definition appends {A} (m : State A) : Prop :=
  exists a ms cs rs, forall w, m w = (a, extend w ms cs rs).

(** The calls that get past the guard of [searchHeroes]; every other
    operation reaches the client unconditionally. *)
Definition reaches_client (c : Call) : bool :=
  match c with
  | SearchHeroes term => negb (forallb JsString.is_white_space term)
  | _ => true
  end.

(** The variables a call carries ([variables] may be absent). *)
Definition sent_variables (call : GatewayCall) : list (jsstring * JsValue) :=
  match call with
  | WatchQuery _ (JObject properties) | Mutate _ (JObject properties) => properties
  | _ => []
  end.

(** Queries are watched, mutations are mutated. *)
Definition well_kinded (call : GatewayCall) : bool :=
  match call with
  | WatchQuery d _ => match operation d with query => true | mutation => false end
  | Mutate d _ => match operation d with mutation => true | query => false end
  end.

(** Every variable the call carries is declared by its document. *)
Definition sends_only_declared (call : GatewayCall) : bool :=
  forallb (fun kv : jsstring * JsValue =>
             existsb (fun d => JsString.eqb (variable d) (fst kv))
                     (variable_definitions (document_of call)))
          (sent_variables call).

(** Every variable the document requires is carried, with a value other
    than [undefined] and [null]. *)
Definition binds_required (call : GatewayCall) : bool :=
  forallb (fun k =>
             match Js.lookup k (sent_variables call) with
             | None | Some JUndefined | Some JNull => false
             | Some _ => true
             end)
          (Gql.required_variables (document_of call)).

(** A side effect that, on each value, either records exactly one message
    and returns, or throws and records nothing. *)
Definition logs_one_or_throws {A} (next : A -> JS unit) : Prop :=
  forall x w,
    (exists m,
        next x w =
        (Normal tt,
         {| messages := messages w ++ [m];
            console := console w;
            requests := requests w |})) \/
    (exists e, next x w = (Throw e, w)).

(** What the recovery step logs, and what it hands to [console.error], when
    the client's stream fails. *)
Definition failure_tail (operation : jsstring) (fin : Outcome) : list jsstring :=
  match fin with
  | Failed err => [failure_message operation (message err)]
  | _ => []
  end.

Definition console_tail (fin : Outcome) : list JsValue :=
  match fin with
  | Failed err => [error_value err]
  | _ => []
  end.

(** The success diagnostic of the two get-by-id operations. *)
Definition lookup_diagnostic (i : Z) (h : JsValue) : jsstring :=
  lit "HeroService: "
  ++ (if Js.ToBoolean h then lit "fetched" else lit "did not find")
  ++ lit " hero id=" ++ JsString.of_Z i.

(** The operation name each operation builds its recovery handler with
    (the first argument of its [handleError] call). *)
Definition handler_label (c : Call) : jsstring :=
  match c with
  | GetHeroes => lit "getHeroes"
  | GetHeroNo404 i | GetHero i => lit "getHero id=" ++ JsString.of_Z i
  | SearchHeroes _ => lit "searchHeroes"
  | AddHero _ | UpdateHero _ => lit "addHero"
  | DeleteHero _ => lit "deleteHero"
  end.

(** * Properties *)

Arguments lit : simpl never.
Unset Implicit Arguments.

(** ** Strings *)

Section Strings.

Import JsString.

Lemma eqb_refl (s : jsstring) : eqb s s = true.
Proof.
  induction s as [|c s IH]; simpl; [reflexivity|].
  now rewrite N.eqb_refl, IH.
Qed.

Lemma eqb_eq (a b : jsstring) : eqb a b = true <-> a = b.
Proof.
  split; [|intros ->; apply eqb_refl].
  revert b; induction a as [|x a IH]; intros [|y b]; simpl; try easy.
  rewrite andb_true_iff, N.eqb_eq. intros [-> H]. f_equal. now apply IH.
Qed.

Lemma trimStart_nil (s : jsstring) :
  trimStart s = [] <-> forallb is_white_space s = true.
Proof.
  induction s as [|c s IH]; simpl; [tauto|].
  destruct (is_white_space c); simpl; [exact IH|].
  split; discriminate.
Qed.

Lemma trimStart_blank (s : jsstring) :
  forallb is_white_space (trimStart s) = forallb is_white_space s.
Proof.
  induction s as [|c s IH]; simpl; [reflexivity|].
  destruct (is_white_space c) eqn:E; simpl; [exact IH|].
  now rewrite E.
Qed.

Lemma forallb_rev (f : N -> bool) (s : jsstring) :
  forallb f (rev s) = forallb f s.
Proof.
  induction s as [|c s IH]; simpl; [reflexivity|].
  rewrite forallb_app, IH. simpl. rewrite andb_true_r. apply andb_comm.
Qed.

(** [trim] leaves nothing exactly when every code unit is white space. *)
Lemma trim_nil (s : jsstring) :
  trim s = [] <-> forallb is_white_space s = true.
Proof.
  unfold trim, trimEnd.
  rewrite <- (trimStart_blank s), <- (forallb_rev _ (trimStart s)), <- trimStart_nil.
  split; intros H.
  - apply (f_equal (@rev N)) in H. now rewrite rev_involutive in H.
  - now rewrite H.
Qed.

Lemma startsWith_app (a b : jsstring) : startsWith a (a ++ b) = true.
Proof.
  induction a as [|c a IH]; simpl; [reflexivity|].
  now rewrite N.eqb_refl, IH.
Qed.

Lemma includes_at_start (needle haystack : jsstring) :
  startsWith needle haystack = true -> includes needle haystack = true.
Proof. destruct haystack; simpl; intros ->; reflexivity. Qed.

Lemma includes_app (needle before after : jsstring) :
  includes needle (before ++ needle ++ after) = true.
Proof.
  induction before as [|c before IH]; simpl.
  - apply includes_at_start, startsWith_app.
  - rewrite IH. apply orb_true_r.
Qed.

End Strings.

(** ** Values: whatever the model throws is an [Error] with a message *)

Lemma TypeError_error_like (m : jsstring) : error_like (Js.TypeError m).
Proof. exists m. reflexivity. Qed.

Lemma error_value_error_like (e : ApolloError) : error_like (error_value e).
Proof. exists (message e). reflexivity. Qed.

Lemma Get_throws (base : JsValue) (key : jsstring) (e : JsValue) :
  Js.Get base key = Throw e -> error_like e.
Proof.
  destruct base; simpl; try discriminate;
    intros [= <-]; apply TypeError_error_like.
Qed.

Lemma ToString_throws : forall (v e : JsValue),
  Js.ToString v = Throw e -> error_like e.
Proof.
  fix IH 1. intros v e.
  destruct v as [| |[|]|n|s|elements|properties]; simpl; try discriminate.
  - induction elements as [|x rest IHrest]; [discriminate|].
    assert (Hx : forall e',
               match x with
               | JUndefined | JNull => Normal []
               | _ => Js.ToString x
               end = Throw e' -> error_like e').
    { pose proof (IH x) as IHx. intros e'.
      destruct x; try discriminate; apply IHx. }
    destruct (match x with
              | JUndefined | JNull => Normal []
              | _ => Js.ToString x
              end) as [sx|ex] eqn:Ex; simpl.
    + destruct rest as [|y rest']; [discriminate|].
      revert IHrest.
      match goal with
      | |- _ -> Js.bind ?j _ = _ -> _ => destruct j as [r|er]
      end; simpl; [discriminate|].
      intros IHrest H. apply IHrest. exact H.
    + intros [= <-]. apply Hx. reflexivity.
  - destruct (Js.lookup (lit "toString") properties); [|discriminate].
    intros [= <-]. apply TypeError_error_like.
Qed.

(** ** Effects of the building blocks *)

Lemma logs_only_refl (w : World) : logs_only w w.
Proof.
  split; try reflexivity. exists []. now rewrite app_nil_r.
Qed.

Lemma logs_only_trans (w1 w2 w3 : World) :
  logs_only w1 w2 -> logs_only w2 w3 -> logs_only w1 w3.
Proof.
  intros [C1 R1 (a1 & M1 & P1)] [C2 R2 (a2 & M2 & P2)]. split.
  - congruence.
  - congruence.
  - exists (a1 ++ a2). split.
    + now rewrite M2, M1, app_assoc.
    + apply Forall_app. now split.
Qed.

Lemma log_logs_only (m : jsstring) (w : World) :
  logs_only w (snd (HeroService.log m w)).
Proof.
  split; try reflexivity.
  exists [lit "HeroService: " ++ m]. split; [reflexivity|].
  constructor; [apply startsWith_app | constructor].
Qed.

Lemma exec_log_only_logs {A} (text : A -> jsstring) :
  only_logs (fun x => Stmt.exec (HeroService.log (text x))).
Proof.
  intros x w. split; [apply log_logs_only | discriminate].
Qed.

(** The success diagnostic of [addHero] reads [hero.id] and converts it to a
    string: either step may throw, and then nothing is logged. *)
Lemma addHero_tap_only_logs :
  only_logs (fun hero : JsValue =>
               (hero_id <- Stmt.eval (Js.Get hero (lit "id")) ;;
                text <- Stmt.eval (Js.ToString hero_id) ;;
                Stmt.exec (HeroService.log (lit "added hero w/ id=" ++ text)))%js).
Proof.
  intros hero w. unfold Stmt.bind, Stmt.eval, Stmt.exec, St.bind, St.ret.
  destruct (Js.Get hero (lit "id")) as [i|e1] eqn:E1; simpl.
  - destruct (Js.ToString i) as [t|e2] eqn:E2; simpl.
    + split; [apply log_logs_only | discriminate].
    + split; [apply logs_only_refl|]. intros e [= <-]. eapply ToString_throws; eauto.
  - split; [apply logs_only_refl|]. intros e [= <-]. eapply Get_throws; eauto.
Qed.

(** ** The operators *)

Section Operators.

Context {A B : Type}.
Variable f : A -> Completion B.
Variable g : B -> JS unit.

Lemma project_all_sound (xs : list A) (fin : Ending) :
  throws_errors f ->
  (forall e, fin = Errored e -> error_like e) ->
  sound (Rx.project_all f xs fin).
Proof.
  intros Hf Hfin. induction xs as [|x xs IH]; simpl; [exact Hfin|].
  destruct (f x) as [y|e] eqn:E; simpl; [exact IH|].
  intros e' [= <-]. eapply Hf; eauto.
Qed.

Lemma project_all_keeps_error (xs : list A) (e0 : JsValue) :
  exists e, ending (Rx.project_all f xs (Errored e0)) = Errored e.
Proof.
  induction xs as [|x xs IH]; simpl; [eauto|].
  destruct (f x); simpl; eauto.
Qed.

Lemma project_all_success (xs : list A) (ys : list B) (fin : Ending) :
  Forall2 (fun x y => f x = Normal y) xs ys ->
  Rx.project_all f xs fin = {| values := ys; ending := fin |}.
Proof.
  induction 1 as [|x y xs ys Hxy _ IH]; simpl; [reflexivity|].
  now rewrite Hxy, IH.
Qed.

Lemma observe_all_logs_only (ys : list B) (fin : Ending) (w : World) :
  only_logs g -> logs_only w (snd (Rx.observe_all g ys fin w)).
Proof.
  intros Hg. revert w. induction ys as [|y ys IH]; intros w; simpl.
  - apply logs_only_refl.
  - unfold St.bind. destruct (Hg y w) as [Hw _].
    destruct (g y w) as [[u|e] w1]; simpl in *; [|exact Hw].
    specialize (IH w1).
    destruct (Rx.observe_all g ys fin w1) as [o w2]; simpl in *.
    eapply logs_only_trans; eauto.
Qed.

Lemma observe_all_sound (ys : list B) (fin : Ending) (w : World) :
  only_logs g ->
  (forall e, fin = Errored e -> error_like e) ->
  sound (fst (Rx.observe_all g ys fin w)).
Proof.
  intros Hg Hfin. revert w. induction ys as [|y ys IH]; intros w; simpl.
  - exact Hfin.
  - unfold St.bind. destruct (Hg y w) as [_ He].
    destruct (g y w) as [[u|e] w1]; simpl in *.
    + specialize (IH w1).
      destruct (Rx.observe_all g ys fin w1) as [o w2]; simpl in *. exact IH.
    + intros e' [= <-]. now apply He.
Qed.

Lemma observe_all_keeps_error (ys : list B) (e0 : JsValue) (w : World) :
  exists e, ending (fst (Rx.observe_all g ys (Errored e0) w)) = Errored e.
Proof.
  revert w. induction ys as [|y ys IH]; intros w; simpl; [eauto|].
  unfold St.bind. destruct (g y w) as [[u|e] w1]; simpl; [|eauto].
  specialize (IH w1).
  destruct (Rx.observe_all g ys (Errored e0) w1) as [o w2]; simpl in *. exact IH.
Qed.

Lemma observe_all_success (ys : list B) (fin : Ending) (w : World) :
  (forall y w', In y ys -> exists u, fst (g y w') = Normal u) ->
  fst (Rx.observe_all g ys fin w) = {| values := ys; ending := fin |}.
Proof.
  revert w. induction ys as [|y ys IH]; intros w Hg; simpl; [reflexivity|].
  unfold St.bind. destruct (Hg y w (or_introl eq_refl)) as [u Hu].
  destruct (g y w) as [[u'|e] w1]; simpl in *; [|discriminate].
  specialize (IH w1 (fun y' w' H => Hg y' w' (or_intror H))).
  destruct (Rx.observe_all g ys fin w1) as [o w2]; simpl in *. now rewrite IH.
Qed.

End Operators.

(** ** The recovery policy *)

Section Recovery.

Variable operation : jsstring.
Variable result : JsValue.

(** On an [Error] the handler records the error on the console, logs one
    failure diagnostic and continues with the default. *)
Lemma handleError_spec (error : JsValue) (detail : jsstring) (w : World) :
  Js.Get error (lit "message") = Normal (JString detail) ->
  HeroService.handleError operation result error w =
  (Normal (Rx.of_ [result]),
   {| messages := messages w ++ [failure_message operation detail];
      console := console w ++ [error];
      requests := requests w |}).
Proof.
  intros H. unfold HeroService.handleError, Stmt.bind, Stmt.eval, Stmt.exec,
    Stmt.ret, St.bind, St.ret.
  simpl. rewrite H. reflexivity.
Qed.

(** The handler reads [error.message]: on [undefined] or [null] that read
    throws.  No such value reaches it: the client's errors are
    [ApolloError]s and the callbacks throw [TypeError]s. *)
Lemma handleError_needs_an_object (w : World) :
  fst (HeroService.handleError operation result JUndefined w) =
  Throw (Js.TypeError (Js.cannot_read (lit "message") JUndefined)).
Proof. reflexivity. Qed.

Lemma recover_errored (o : Observable JsValue) (error : JsValue)
      (detail : jsstring) (w : World) :
  ending o = Errored error ->
  Js.Get error (lit "message") = Normal (JString detail) ->
  Rx.catchError (HeroService.handleError operation result) o w =
  ({| values := values o ++ [result]; ending := Completed |},
   {| messages := messages w ++ [failure_message operation detail];
      console := console w ++ [error];
      requests := requests w |}).
Proof.
  intros He Hm. unfold Rx.catchError, St.bind. rewrite He.
  rewrite handleError_spec with (1 := Hm). reflexivity.
Qed.

Lemma recover_quiet (o : Observable JsValue) (w : World) :
  (forall e, ending o <> Errored e) ->
  Rx.catchError (HeroService.handleError operation result) o w = (o, w).
Proof.
  intros H. unfold Rx.catchError. destruct (ending o) eqn:E; try reflexivity.
  now elim (H error).
Qed.

End Recovery.

(** ** The pipeline every operation builds

    Each operation that reaches the client has the shape
    [source.pipe(map(f), tap(g), catchError(handleError(operation, result)))];
    the facts below hold for any such pipeline whose callbacks throw
    [Error]s only and whose side effect only logs. *)

Section Pipeline.

Variable apollo : Gateway.
Variable call : GatewayCall.
Variable f : Envelope -> Completion JsValue.
Variable g : JsValue -> JS unit.
Variable operation : jsstring.
Variable result : JsValue.

Hypothesis Hf : throws_errors f.
Hypothesis Hg : only_logs g.

#[local] Notation pipeline :=
  (HeroService.subscribe apollo call
   >>= Rx.map f
   >>= Rx.tap g
   >>= Rx.catchError (HeroService.handleError operation result))%state.

Local Notation issued w :=
  {| messages := messages w; console := console w;
     requests := requests w ++ [call] |}.

Local Notation projected :=
  (Rx.project_all f (results (apollo call)) (ending (delivered (apollo call)))).

(** The stream and the world just before the recovery step. *)
Local Notation attempt w :=
  (Rx.observe_all g (values projected) (ending projected) (issued w)).

Lemma pipeline_unfold (w : World) :
  pipeline w =
  Rx.catchError (HeroService.handleError operation result)
    (fst (attempt w)) (snd (attempt w)).
Proof.
  cbv beta iota zeta delta
    [St.bind HeroService.subscribe Rx.map Rx.tap St.ret delivered values ending].
  match goal with
  | |- context [fst ?t] => destruct t
  end.
  reflexivity.
Qed.

Lemma delivered_sound : sound (delivered (apollo call)).
Proof.
  intros e. unfold delivered; simpl.
  destruct (outcome (apollo call)); try discriminate.
  intros [= <-]. apply error_value_error_like.
Qed.

Lemma attempt_sound (w : World) : sound (fst (attempt w)).
Proof.
  apply observe_all_sound; [exact Hg|].
  apply project_all_sound; [exact Hf | apply delivered_sound].
Qed.

Lemma attempt_logs_only (w : World) : logs_only (issued w) (snd (attempt w)).
Proof. apply observe_all_logs_only, Hg. Qed.

(** Either an error reached the recovery step, which then logged one
    failure diagnostic and completed the stream with the default, or none
    did and the recovery step changed nothing. *)
Lemma pipeline_cases (w : World) :
  (exists e m,
      ending (fst (attempt w)) = Errored e /\
      Js.Get e (lit "message") = Normal (JString m) /\
      pipeline w =
      ({| values := values (fst (attempt w)) ++ [result]; ending := Completed |},
       {| messages := messages (snd (attempt w)) ++ [failure_message operation m];
          console := console (snd (attempt w)) ++ [e];
          requests := requests (snd (attempt w)) |}))
  \/ ((forall e, ending (fst (attempt w)) <> Errored e) /\
      pipeline w = attempt w).
Proof.
  rewrite pipeline_unfold.
  destruct (ending (fst (attempt w))) as [|e|] eqn:E.
  - right. split; [discriminate|].
    rewrite recover_quiet by (rewrite E; discriminate).
    now destruct (attempt w).
  - left. destruct (attempt_sound w e E) as [m Hm].
    exists e, m. repeat split; trivial.
    now apply recover_errored.
  - right. split; [discriminate|].
    rewrite recover_quiet by (rewrite E; discriminate).
    now destruct (attempt w).
Qed.

Lemma pipeline_never_errors (w : World) (e : JsValue) :
  ending (fst (pipeline w)) <> Errored e.
Proof.
  destruct (pipeline_cases w) as [(e' & m & _ & _ & ->) | [H ->]].
  - discriminate.
  - apply H.
Qed.

Lemma pipeline_requests (w : World) :
  requests (snd (pipeline w)) = requests w ++ [call].
Proof.
  destruct (attempt_logs_only w) as [_ R _]. simpl in R.
  destruct (pipeline_cases w) as [(e' & m & _ & _ & ->) | [_ ->]]; exact R.
Qed.

Lemma pipeline_messages (w : World) :
  exists added,
    messages (snd (pipeline w)) = messages w ++ added /\ Forall prefixed added.
Proof.
  destruct (attempt_logs_only w) as [_ _ (added & M & P)]. simpl in M.
  destruct (pipeline_cases w) as [(e' & m & _ & _ & ->) | [_ ->]].
  - exists (added ++ [failure_message operation m]). simpl. split.
    + now rewrite M, app_assoc.
    + apply Forall_app. split; [exact P|].
      constructor; [|constructor]. apply startsWith_app.
  - now exists added.
Qed.

Lemma pipeline_console (w : World) :
  console (snd (pipeline w)) <> console w ->
  exists vs,
    fst (pipeline w) = {| values := vs ++ [result]; ending := Completed |}.
Proof.
  destruct (attempt_logs_only w) as [C _ _]. simpl in C.
  destruct (pipeline_cases w) as [(e' & m & _ & _ & ->) | [_ ->]].
  - intros _. now eexists.
  - intros H. now elim H.
Qed.

Lemma pipeline_client_failure (w : World) (err : ApolloError) :
  outcome (apollo call) = Failed err ->
  exists vs,
    fst (pipeline w) = {| values := vs ++ [result]; ending := Completed |}.
Proof.
  intros Ho.
  destruct (pipeline_cases w) as [(e' & m & _ & _ & ->) | [H _]].
  - now eexists.
  - exfalso.
    assert (E : ending (delivered (apollo call)) = Errored (error_value err))
      by (unfold delivered; simpl; now rewrite Ho).
    rewrite E in H.
    destruct (project_all_keeps_error f (results (apollo call)) (error_value err))
      as [e1 E1].
    rewrite E1 in H.
    destruct (observe_all_keeps_error g
                (values (Rx.project_all f (results (apollo call))
                           (Errored (error_value err)))) e1 (issued w))
      as [e2 E2].
    now elim (H e2).
Qed.

(** When no callback throws, the caller receives the projected values,
    followed by the default if the client's stream failed. *)
Lemma pipeline_success (w : World) (ys : list JsValue) :
  Forall2 (fun x y => f x = Normal y) (results (apollo call)) ys ->
  (forall y w', In y ys -> exists u, fst (g y w') = Normal u) ->
  fst (pipeline w) =
  {| values := ys ++ recovery_tail (outcome (apollo call)) result;
     ending := recovered_ending (outcome (apollo call)) |}.
Proof.
  intros Hys Hgs. rewrite pipeline_unfold.
  rewrite project_all_success with (1 := Hys). cbn [values ending].
  set (fin := ending (delivered (apollo call))).
  pose proof (observe_all_success g ys fin (issued w) Hgs) as Ho.
  destruct (Rx.observe_all g ys fin (issued w)) as [o2 w2].
  cbn [fst snd] in *. subst o2 fin. unfold delivered; cbn [ending].
  destruct (outcome (apollo call)) as [|err|]; cbn [recovery_tail recovered_ending].
  - rewrite recover_quiet by discriminate. now rewrite app_nil_r.
  - erewrite recover_errored; [reflexivity | reflexivity | reflexivity].
  - rewrite recover_quiet by discriminate. now rewrite app_nil_r.
Qed.

(** When the projection throws on the first envelope, the caller receives
    the default alone and one failure diagnostic is recorded. *)
Lemma pipeline_first_throw (w : World) (x : Envelope) (rest : list Envelope)
      (e : JsValue) (m : jsstring) :
  results (apollo call) = x :: rest ->
  f x = Throw e ->
  Js.Get e (lit "message") = Normal (JString m) ->
  pipeline w =
  ({| values := [result]; ending := Completed |},
   {| messages := messages w ++ [failure_message operation m];
      console := console w ++ [e];
      requests := requests w ++ [call] |}).
Proof.
  intros Hr Hx Hm. rewrite pipeline_unfold, Hr. simpl. rewrite Hx. simpl.
  erewrite recover_errored; [reflexivity | reflexivity | exact Hm].
Qed.

(** When the client fails before any result, the caller receives the
    default alone and one failure diagnostic is recorded. *)
Lemma pipeline_immediate_failure (w : World) (err : ApolloError) :
  apollo call = {| results := []; outcome := Failed err |} ->
  pipeline w =
  ({| values := [result]; ending := Completed |},
   {| messages := messages w ++ [failure_message operation (message err)];
      console := console w ++ [error_value err];
      requests := requests w ++ [call] |}).
Proof.
  intros Hr. rewrite pipeline_unfold, Hr. simpl.
  erewrite recover_errored; [reflexivity | reflexivity | reflexivity].
Qed.

End Pipeline.

(** ** The callbacks of the seven operations *)

Lemma read_field_throws (field : jsstring) :
  throws_errors (fun result : Envelope => Js.Get (data_value result) field).
Proof. intros x e. apply Get_throws. Qed.

Lemma read_first_hero_throws :
  throws_errors (fun result : Envelope =>
                   Js.bind (Js.Get (data_value result) (lit "heroes"))
                     (fun heroes => Js.Get heroes (lit "0"))).
Proof.
  intros x e. destruct (Js.Get (data_value x) (lit "heroes")) eqn:E; simpl.
  - apply Get_throws.
  - intros [= <-]. eapply Get_throws; eauto.
Qed.

Lemma null_data_throws (result : Envelope) (field : jsstring) :
  data result = None ->
  Js.Get (data_value result) field =
  Throw (Js.TypeError (Js.cannot_read field JNull)).
Proof. unfold data_value. now intros ->. Qed.

Lemma carried_field (result : Envelope) (field : jsstring) (v : JsValue) :
  carries field v result ->
  Js.Get (data_value result) field = Normal v.
Proof.
  intros (properties & Hd & Hl). unfold data_value. rewrite Hd. simpl.
  now rewrite Hl.
Qed.

Lemma log_never_throws (m : jsstring) (w : World) :
  exists u, fst (Stmt.exec (HeroService.log m) w) = Normal u.
Proof. now exists tt. Qed.

Create HintDb service.
#[local] Hint Resolve read_field_throws read_first_hero_throws
  addHero_tap_only_logs : service.
#[local] Hint Extern 1 (only_logs _) => apply exec_log_only_logs : service.

(** Exposes an operation as the pipeline it builds. *)
Ltac as_pipeline :=
  unfold invoke, HeroService.getHeroes, HeroService.getHeroNo404,
    HeroService.getHero, HeroService.addHero, HeroService.deleteHero,
    HeroService.updateHero, HeroService.watchQuery, HeroService.mutate.

Lemma searchHeroes_blank_term (apollo : Gateway) (term : jsstring) :
  forallb JsString.is_white_space term = true ->
  HeroService.searchHeroes apollo term = St.ret (Rx.of_ [JArray []]).
Proof.
  intros H. unfold HeroService.searchHeroes.
  apply trim_nil in H. now rewrite H.
Qed.

Lemma searchHeroes_proper_term (apollo : Gateway) (term : jsstring) :
  forallb JsString.is_white_space term = false ->
  HeroService.searchHeroes apollo term =
  (HeroService.subscribe apollo
     (WatchQuery Gql.searchQuery (JObject [(lit "q", JString term)]))
   >>= Rx.map (fun result => Js.Get (data_value result) (lit "search"))
   >>= Rx.tap (fun _ =>
                 Stmt.exec (HeroService.log (lit "found heroes matching "
                                               ++ dquote ++ term ++ dquote)))
   >>= Rx.catchError (HeroService.handleError (lit "searchHeroes") (JArray [])))%state.
Proof.
  intros H. unfold HeroService.searchHeroes, HeroService.watchQuery.
  destruct (JsString.trim term) eqn:E; [|reflexivity].
  apply trim_nil in E. congruence.
Qed.

(** ** Recovery: no failure reaches the caller *)

Section PipelineRecovery.

Variable apollo : Gateway.
Variable call : GatewayCall.
Variable f : Envelope -> Completion JsValue.
Variable g : JsValue -> JS unit.
Variable operation : jsstring.
Variable result : JsValue.

Hypothesis Hf : throws_errors f.
Hypothesis Hg : only_logs g.
Hypothesis Hnull : forall x, data x = None -> exists e, f x = Throw e.

#[local] Notation pipeline :=
  (HeroService.subscribe apollo call
   >>= Rx.map f
   >>= Rx.tap g
   >>= Rx.catchError (HeroService.handleError operation result))%state.

(** The four facts about failures, for one pipeline: the stream handed to
    the caller never errors; it ends with the default and completes when
    the client's stream failed, when the recovery handler ran at all, and
    when the first envelope has no data to project. *)
Lemma pipeline_recovery (w : World) :
  (forall e, ending (fst (pipeline w)) <> Errored e) /\
  (forall calls,
      requests (snd (pipeline w)) = requests w ++ calls ->
      (forall c', In c' calls -> exists err, outcome (apollo c') = Failed err) ->
      exists vs,
        fst (pipeline w) = {| values := vs ++ [result]; ending := Completed |}) /\
  (console (snd (pipeline w)) <> console w ->
   exists vs,
     fst (pipeline w) = {| values := vs ++ [result]; ending := Completed |}) /\
  ((forall c', exists first rest,
        results (apollo c') = first :: rest /\ data first = None) ->
   fst (pipeline w) = {| values := [result]; ending := Completed |}).
Proof.
  repeat split.
  - intros e. now apply pipeline_never_errors.
  - intros calls Hcalls Hfail.
    rewrite pipeline_requests in Hcalls by assumption.
    apply app_inv_head in Hcalls. subst calls.
    destruct (Hfail call (or_introl eq_refl)) as [err Herr].
    eapply pipeline_client_failure; eauto.
  - now apply pipeline_console.
  - intros Hfirst. destruct (Hfirst call) as (first & rest & Hr & Hd).
    destruct (Hnull first Hd) as [e He].
    pose proof He as Hm. apply Hf in Hm. destruct Hm as [m Hm].
    now rewrite pipeline_first_throw with (1 := Hr) (2 := He) (3 := Hm).
Qed.

End PipelineRecovery.

(** C1. For every operation, every client and every starting state: the
    stream handed to the caller never ends in an error; and it ends with the
    operation's documented default (the empty sequence for [getHeroes] and
    [searchHeroes], [undefined] for the single-record operations) and then
    completes (i) whenever every call the operation issued to the client
    failed, (ii) whenever the recovery handler ran at all, whether on an
    error of the client or on a throw of the mapping step, and (iii),
    with the default as the only value, whenever the first envelope of the
    client has [data: null], on which the mapping step throws.
    [deleteHero] on an id the server rejects is an instance of (i). *)
Theorem failures_resolve_to_documented_default
        (apollo : Gateway) (c : Call) (w : World) :
  (forall e, ending (fst (invoke apollo c w)) <> Errored e) /\
  (forall calls,
      requests (snd (invoke apollo c w)) = requests w ++ calls ->
      (forall c', In c' calls -> exists err, outcome (apollo c') = Failed err) ->
      exists vs,
        fst (invoke apollo c w) =
        {| values := vs ++ [documented_default c]; ending := Completed |}) /\
  (console (snd (invoke apollo c w)) <> console w ->
   exists vs,
     fst (invoke apollo c w) =
     {| values := vs ++ [documented_default c]; ending := Completed |}) /\
  ((forall c', exists first rest,
        results (apollo c') = first :: rest /\ data first = None) ->
   fst (invoke apollo c w) =
   {| values := [documented_default c]; ending := Completed |}).
Proof.
  assert (Hnull : forall field x, data x = None ->
                    exists e, Js.Get (data_value x) field = Throw e)
    by (intros field x Hx; rewrite null_data_throws by exact Hx; eauto).
  destruct c as [|i|i|term|h|h|h]; simpl documented_default;
    try (as_pipeline; apply pipeline_recovery; auto with service).
  - (* getHeroNo404: the projection reads two properties *)
    intros x Hx. rewrite null_data_throws by exact Hx. simpl. eauto.
  - (* searchHeroes: the guard decides whether the client is reached *)
    simpl invoke.
    destruct (forallb JsString.is_white_space term) eqn:Hblank.
    + rewrite (searchHeroes_blank_term apollo _ Hblank). simpl.
      repeat split; try discriminate.
      * intros. now exists [].
      * intros H. now elim H.
    + rewrite (searchHeroes_proper_term apollo _ Hblank).
      apply pipeline_recovery; auto with service.
Qed.

Lemma failures_resolve_to_documented_default_witness :
  (exists vs,
      fst (invoke (failing_gateway (lit "Not found")) (DeleteHero (AsNumber 404)) idle) =
      {| values := vs ++ [JUndefined]; ending := Completed |}) /\
  (exists vs,
      fst (invoke (failing_gateway (lit "Network error")) GetHeroes idle) =
      {| values := vs ++ [JArray []]; ending := Completed |}) /\
  fst (invoke (answering_gateway {| data := None; errors := [] |})
         (AddHero bo) idle) =
  {| values := [JUndefined]; ending := Completed |}.
Proof.
  split; [|split].
  - destruct (failures_resolve_to_documented_default
                (failing_gateway (lit "Not found")) (DeleteHero (AsNumber 404)) idle)
      as (_ & H & _).
    apply (H [Mutate Gql.deleteHero (JObject [(lit "id", JNumber 404)])]).
    + reflexivity.
    + intros c' _. eexists. reflexivity.
  - destruct (failures_resolve_to_documented_default
                (failing_gateway (lit "Network error")) GetHeroes idle)
      as (_ & _ & H & _).
    apply H. vm_compute. discriminate.
  - destruct (failures_resolve_to_documented_default
                (answering_gateway {| data := None; errors := [] |})
                (AddHero bo) idle)
      as (_ & _ & _ & H).
    apply H. intros c'. do 2 eexists. split; reflexivity.
Defined.

(** ** Failure diagnostics *)

(** C2 (the code departs from it).  When the client rejects an [updateHero]
    mutation, the single diagnostic recorded is
    "HeroService: addHero failed: <detail>": the recovery handler of
    [updateHero] is built with the operation name of [addHero].  For the
    detail "Network error" the diagnostic does not contain "updateHero". *)
Theorem updateHero_failure_is_reported_as_addHero :
  (forall (h : Hero) (detail : jsstring) (w : World),
      messages (snd (HeroService.updateHero (failing_gateway detail) h w)) =
      messages w ++ [failure_message (lit "addHero") detail]) /\
  JsString.includes (method_name (UpdateHero bo))
    (failure_message (lit "addHero") (lit "Network error")) = false /\
  messages (snd (invoke (failing_gateway (lit "Network error")) (UpdateHero bo) idle)) =
  [lit "HeroService: addHero failed: Network error"].
Proof.
  split; [|split].
  - intros h detail w. as_pipeline.
    now rewrite pipeline_immediate_failure with (err := {| message := detail |}).
  - vm_compute. reflexivity.
  - vm_compute. reflexivity.
Qed.

(** The handler each operation installs: the operation name it reports and
    the sibling operations that report their own. *)
Lemma failure_diagnostic_of_each_operation (detail : jsstring) (w : World) :
  let reported c := messages (snd (invoke (failing_gateway detail) c w)) in
  reported GetHeroes = messages w ++ [failure_message (lit "getHeroes") detail] /\
  (forall i, reported (GetHero i) =
             messages w ++ [failure_message (lit "getHero id=" ++ JsString.of_Z i) detail]) /\
  (forall i, reported (GetHeroNo404 i) =
             messages w ++ [failure_message (lit "getHero id=" ++ JsString.of_Z i) detail]) /\
  (forall h, reported (AddHero h) =
             messages w ++ [failure_message (lit "addHero") detail]) /\
  (forall h, reported (DeleteHero h) =
             messages w ++ [failure_message (lit "deleteHero") detail]) /\
  (forall term, forallb JsString.is_white_space term = false ->
                reported (SearchHeroes term) =
                messages w ++ [failure_message (lit "searchHeroes") detail]).
Proof.
  cbv zeta. repeat split; intros; simpl invoke;
    try rewrite searchHeroes_proper_term by assumption;
    as_pipeline;
    now rewrite pipeline_immediate_failure with (err := {| message := detail |}).
Qed.

(** A failure diagnostic contains the operation name its handler was built
    with. *)
Lemma failure_message_includes_operation (operation detail : jsstring) :
  JsString.includes operation (failure_message operation detail) = true.
Proof. unfold failure_message. apply includes_app. Qed.

(** ** Search *)

(** C3. For every search term made of white space only (the empty term
    included), [searchHeroes] hands back the stream [of([])] and leaves the
    world as it was: no call reaches the client, nothing is logged. *)
Theorem searchHeroes_blank_issues_no_call
        (apollo : Gateway) (term : jsstring) (w : World) :
  forallb JsString.is_white_space term = true ->
  HeroService.searchHeroes apollo term w =
  ({| values := [JArray []]; ending := Completed |}, w).
Proof.
  intros H. now rewrite searchHeroes_blank_term.
Qed.

Lemma searchHeroes_blank_issues_no_call_witness :
  HeroService.searchHeroes hero_gateway (lit "   ") idle =
  ({| values := [JArray []]; ending := Completed |}, idle) /\
  HeroService.searchHeroes hero_gateway [] idle =
  ({| values := [JArray []]; ending := Completed |}, idle) /\
  HeroService.searchHeroes hero_gateway [9; 160; 8233; 65279]%N idle =
  ({| values := [JArray []]; ending := Completed |}, idle).
Proof.
  split; [|split];
    apply searchHeroes_blank_issues_no_call; reflexivity.
Defined.

(** C4. For every search term with at least one code unit that is not white
    space, [searchHeroes] issues exactly one call to the client: a watched
    [searchQuery] whose variables hold the term, unchanged, as [q]. *)
Theorem searchHeroes_issues_one_query
        (apollo : Gateway) (term : jsstring) (w : World) :
  existsb (fun c => negb (JsString.is_white_space c)) term = true ->
  requests (snd (HeroService.searchHeroes apollo term w)) =
  requests w ++ [WatchQuery Gql.searchQuery (JObject [(lit "q", JString term)])] /\
  Js.Get (JObject [(lit "q", JString term)]) (lit "q") = Normal (JString term).
Proof.
  intros H.
  assert (Hblank : forallb JsString.is_white_space term = false).
  { apply existsb_exists in H. destruct H as (c & Hin & Hc).
    destruct (forallb JsString.is_white_space term) eqn:E; [|reflexivity].
    rewrite forallb_forall in E. rewrite (E c Hin) in Hc. discriminate. }
  split; [|reflexivity].
  rewrite searchHeroes_proper_term by assumption.
  apply pipeline_requests; auto with service.
Qed.

Lemma searchHeroes_issues_one_query_witness :
  requests (snd (HeroService.searchHeroes hero_gateway (lit " Bo ") idle)) =
  [WatchQuery Gql.searchQuery (JObject [(lit "q", JString (lit " Bo "))])] /\
  Js.Get (JObject [(lit "q", JString (lit " Bo "))]) (lit "q") =
  Normal (JString (lit " Bo ")).
Proof.
  apply (searchHeroes_issues_one_query hero_gateway (lit " Bo ") idle).
  reflexivity.
Defined.

(** ** Reading one hero *)

(** C5. For every id [i]: if each envelope the client delivers for
    [heroQuery] with [id := i] carries under [data.hero] a hero record with
    id [i], then [getHero i] hands exactly these records to the caller, in
    order, each with [id] equal to [i]; after them comes [undefined] if the
    client's stream then fails, and nothing otherwise. *)
Theorem getHero_resolves_the_record
        (apollo : Gateway) (i : Z) (heroes : list Hero) (w : World) :
  let call := WatchQuery Gql.heroQuery (JObject [(lit "id", JNumber i)]) in
  Forall2 (fun env h => carries (lit "hero") (hero_value h) env /\ id h = i)
          (results (apollo call)) heroes ->
  values (fst (HeroService.getHero apollo i w)) =
  List.map hero_value heroes ++ recovery_tail (outcome (apollo call)) JUndefined /\
  Forall (fun v => Js.Get v (lit "id") = Normal (JNumber i) /\ is_hero v = true)
         (List.map hero_value heroes).
Proof.
  intros call H. split.
  - as_pipeline. fold call.
    rewrite pipeline_success with (ys := List.map hero_value heroes);
      auto with service.
    + induction H as [|env h envs hs [Hc _] _ IH]; simpl; constructor.
      * now apply carried_field.
      * exact IH.
    + intros. apply log_never_throws.
  - induction H as [|env h envs hs [_ Hi] _ IH]; simpl; constructor.
    + subst i. split; reflexivity.
    + exact IH.
Qed.

Lemma getHero_resolves_the_record_witness :
  values (fst (HeroService.getHero hero_gateway 7 idle)) = [hero_value bo] /\
  Forall (fun v => Js.Get v (lit "id") = Normal (JNumber 7) /\ is_hero v = true)
         [hero_value bo].
Proof.
  apply (getHero_resolves_the_record hero_gateway 7 [bo] idle).
  repeat constructor. exists [(lit "hero", hero_value bo)]. split; reflexivity.
Defined.

(** ** Updating *)

(** C6. For every hero [h] and every client whose [updateHero] mutation
    echoes the record [{id, name}] it was sent, [updateHero h] hands the
    caller exactly one value, structurally equal to [h], and completes. *)
Theorem updateHero_round_trip (apollo : Gateway) (h : Hero) (w : World) :
  echoes_updates apollo ->
  fst (HeroService.updateHero apollo h w) =
  {| values := [hero_value h]; ending := Completed |}.
Proof.
  intros Hecho. as_pipeline.
  pose proof (Hecho (id h) (name h)) as He. unfold update_variables in He.
  rewrite pipeline_success with (ys := [hero_value h]); auto with service.
  - now rewrite He.
  - rewrite He. simpl. repeat constructor.
  - intros. apply log_never_throws.
Qed.

Lemma updateHero_round_trip_witness :
  fst (HeroService.updateHero echo_gateway bo idle) =
  {| values := [hero_value bo]; ending := Completed |}.
Proof.
  apply (updateHero_round_trip echo_gateway bo idle).
  intros i n. reflexivity.
Defined.

(** ** The lenient get-by-id *)

(** Reading [data.heroes[0]] from an envelope without a [heroes] field
    throws; the recovery handler takes over at the first envelope. *)
Lemma getHeroNo404_without_heroes_field
      (apollo : Gateway) (i : Z) (w : World)
      (first : Envelope) (rest : list Envelope)
      (properties : list (jsstring * JsValue)) :
  results (apollo (WatchQuery Gql.heroQuery JUndefined)) = first :: rest ->
  data first = Some properties ->
  Js.lookup (lit "heroes") properties = None ->
  HeroService.getHeroNo404 apollo i w =
  ({| values := [JUndefined]; ending := Completed |},
   {| messages :=
        messages w ++
        [failure_message (lit "getHero id=" ++ JsString.of_Z i)
           (Js.cannot_read (lit "0") JUndefined)];
      console := console w ++ [Js.TypeError (Js.cannot_read (lit "0") JUndefined)];
      requests := requests w ++ [WatchQuery Gql.heroQuery JUndefined] |}).
Proof.
  intros Hr Hd Hl. as_pipeline.
  apply pipeline_first_throw with (x := first) (rest := rest).
  - exact Hr.
  - unfold data_value. rewrite Hd. simpl. rewrite Hl. reflexivity.
  - reflexivity.
Qed.

(** C8. For every id and every client whose first envelope for the call has
    a [data] mapping without a [heroes] field (in particular the wire shape
    of [heroQuery], a single [hero] field): [getHeroNo404] issues
    [heroQuery] with no variables, although the document declares [$id] as
    required and selects [hero], not [heroes]; reading [data.heroes[0]]
    throws, the recovery handler logs one failure diagnostic, and the caller
    receives [undefined] alone, after which the stream completes. *)
Theorem getHeroNo404_always_recovers
        (apollo : Gateway) (i : Z) (w : World)
        (first : Envelope) (rest : list Envelope)
        (properties : list (jsstring * JsValue)) :
  results (apollo (WatchQuery Gql.heroQuery JUndefined)) = first :: rest ->
  data first = Some properties ->
  Js.lookup (lit "heroes") properties = None ->
  HeroService.getHeroNo404 apollo i w =
  ({| values := [JUndefined]; ending := Completed |},
   {| messages :=
        messages w ++
        [failure_message (lit "getHero id=" ++ JsString.of_Z i)
           (Js.cannot_read (lit "0") JUndefined)];
      console := console w ++ [Js.TypeError (Js.cannot_read (lit "0") JUndefined)];
      requests := requests w ++ [WatchQuery Gql.heroQuery JUndefined] |}) /\
  Gql.required_variables Gql.heroQuery = [lit "id"] /\
  field_name (root Gql.heroQuery) = lit "hero" /\
  field_name (root Gql.heroQuery) <> lit "heroes".
Proof.
  intros Hr Hd Hl. split.
  - now apply getHeroNo404_without_heroes_field with (1 := Hr) (2 := Hd).
  - split; [reflexivity|]. split; [reflexivity|]. discriminate.
Qed.

Lemma getHeroNo404_always_recovers_witness :
  fst (HeroService.getHeroNo404 hero_gateway 7 idle) =
  {| values := [JUndefined]; ending := Completed |} /\
  messages (snd (HeroService.getHeroNo404 hero_gateway 7 idle)) =
  [lit "HeroService: getHero id=7 failed: Cannot read property '0' of undefined"].
Proof.
  destruct (getHeroNo404_always_recovers hero_gateway 7 idle
              (envelope (lit "hero") (hero_value bo)) []
              [(lit "hero", hero_value bo)]
              eq_refl eq_refl eq_refl) as [H _].
  rewrite H. split; reflexivity.
Defined.

(** ** Deleting *)

(** C9. For every hero [h], [deleteHero(h)] and [deleteHero(h.id)] are the
    same computation: both issue the [deleteHero] mutation with the
    variables [{ id: h.id }], and for any client and starting state they
    hand the caller the same stream and leave the same world. *)
Theorem deleteHero_forms_agree (apollo : Gateway) (h : Hero) (w : World) :
  HeroService.deleteHero apollo (AsHero h) w =
  HeroService.deleteHero apollo (AsNumber (id h)) w /\
  requests (snd (HeroService.deleteHero apollo (AsHero h) w)) =
  requests w ++ [Mutate Gql.deleteHero (JObject [(lit "id", JNumber (id h))])] /\
  requests (snd (HeroService.deleteHero apollo (AsNumber (id h)) w)) =
  requests w ++ [Mutate Gql.deleteHero (JObject [(lit "id", JNumber (id h))])].
Proof.
  split; [reflexivity|].
  split; as_pipeline; apply pipeline_requests; auto with service.
Qed.

(** ** The message sink *)

(** C10. For every operation, client and starting state, the messages the
    operation adds to the message service, success and failure diagnostics
    alike, all start with "HeroService: "; the messages that were there
    before are kept. *)
Theorem every_message_is_prefixed (apollo : Gateway) (c : Call) (w : World) :
  exists added,
    messages (snd (invoke apollo c w)) = messages w ++ added /\
    Forall (fun m => JsString.startsWith (lit "HeroService: ") m = true) added.
Proof.
  destruct c as [|i|i|term|h|h|h];
    try (as_pipeline; apply pipeline_messages; auto with service).
  simpl invoke.
  destruct (forallb JsString.is_white_space term) eqn:Hblank.
  - rewrite (searchHeroes_blank_term apollo _ Hblank). simpl.
    exists []. split; [now rewrite app_nil_r | constructor].
  - rewrite (searchHeroes_proper_term apollo _ Hblank).
    apply pipeline_messages; auto with service.
Qed.

(** ** What a caller can be handed *)

(** The service hands on what the envelope holds under the field it reads;
    it checks nothing.  Here the caller of [getHeroes] receives a sequence
    whose only record has a [null] name. *)
Lemma getHeroes_passes_on_what_it_reads :
  let partial := JArray [JObject [(lit "id", JNumber 1); (lit "name", JNull)]] in
  values (fst (HeroService.getHeroes
                 (answering_gateway (envelope (lit "heroes") partial)) idle)) =
  [partial] /\
  is_hero_sequence partial = false.
Proof. split; reflexivity. Qed.

Lemma acknowledging_gateway_conformant : wire_conformant acknowledging_gateway.
Proof.
  intros call. unfold acknowledging_gateway.
  destruct (JsString.eqb (operation_name (document_of call)) (lit "deleteHero"))
    eqn:E; simpl; constructor; [|constructor].
  exists (JBool true). split; [reflexivity|].
  apply eqb_eq in E. unfold wire_payload. rewrite E. reflexivity.
Qed.

Lemma answering_only_conformant (name : jsstring) (v : JsValue) :
  (forall d, operation_name d = name -> wire_payload d v = true) ->
  wire_conformant (answering_only name v).
Proof.
  intros Hv call. unfold answering_only.
  destruct (JsString.eqb (operation_name (document_of call)) name) eqn:E;
    simpl; constructor; [|constructor].
  exists v. split; [reflexivity|]. apply Hv. now apply eqb_eq.
Qed.

Lemma not_found_answer_conformant :
  wire_conformant (answering_only (lit "heroQuery") JNull).
Proof.
  apply answering_only_conformant. intros d E.
  unfold wire_payload. rewrite E. reflexivity.
Qed.

(** C7, as stated, fails, in three ways.  With a client that follows the
    wire contract and acknowledges a [deleteHero] mutation with [true], the
    caller of [deleteHero] is handed [true].  With a client that follows
    the wire contract and answers [heroQuery] with [null] for a record it
    does not have, the caller of [getHero] is handed [null], not
    [undefined].  With a client that delivers a record without a [name],
    the caller of [getHeroes] is handed that record.  None of these values
    is a full Hero record, a sequence of them, the empty sequence or
    [undefined]. *)
Lemma callers_are_handed_more_than_heroes :
  (wire_conformant acknowledging_gateway /\
   fst (invoke acknowledging_gateway (DeleteHero (AsNumber 1)) idle) =
   {| values := [JBool true]; ending := Completed |}) /\
  (wire_conformant (answering_only (lit "heroQuery") JNull) /\
   fst (invoke (answering_only (lit "heroQuery") JNull) (GetHero 7) idle) =
   {| values := [JNull]; ending := Completed |}) /\
  (fst (invoke (answering_gateway
                  (envelope (lit "heroes") (JArray [JObject [(lit "id", JNumber 1)]])))
          GetHeroes idle) =
   {| values := [JArray [JObject [(lit "id", JNumber 1)]]]; ending := Completed |} /\
   is_hero_sequence (JArray [JObject [(lit "id", JNumber 1)]]) = false) /\
  ~ (forall apollo c, wire_conformant apollo -> exposes_heroes_only apollo c) /\
  ~ (forall apollo c, exposes_heroes_only apollo c).
Proof.
  split; [split; [apply acknowledging_gateway_conformant | reflexivity]|].
  split; [split; [apply not_found_answer_conformant | reflexivity]|].
  split; [split; reflexivity|].
  assert (N : ~ exposes_heroes_only acknowledging_gateway (DeleteHero (AsNumber 1))).
  { intros H.
    destruct (H idle (JBool true)) as [F | [F | F]]; try discriminate.
    left. reflexivity. }
  split; intros H; apply N, H. apply acknowledging_gateway_conformant.
Qed.

(** Where the values handed to the caller come from. *)

Lemma project_all_origin {A B} (f : A -> Completion B) (xs : list A)
      (fin : Ending) (y : B) :
  In y (values (Rx.project_all f xs fin)) ->
  exists x, In x xs /\ f x = Normal y.
Proof.
  induction xs as [|x xs IH]; simpl; [intros []|].
  destruct (f x) as [y'|e] eqn:E; simpl; [|intros []].
  intros [<- | Hin].
  - exists x. now split; [left|].
  - destruct (IH Hin) as (x' & Hx' & Hf'). exists x'. now split; [right|].
Qed.

Lemma observe_all_origin {A} (g : A -> JS unit) (ys : list A) (fin : Ending)
      (w : World) (y : A) :
  In y (values (fst (Rx.observe_all g ys fin w))) -> In y ys.
Proof.
  revert w. induction ys as [|y' ys IH]; intros w; simpl; [intros []|].
  unfold St.bind. destruct (g y' w) as [[u|e] w1]; simpl; [|intros []].
  specialize (IH w1).
  destruct (Rx.observe_all g ys fin w1) as [o w2]; simpl in *.
  intros [<- | Hin]; [now left | right; now apply IH].
Qed.

Section PipelineOrigin.

Variable apollo : Gateway.
Variable call : GatewayCall.
Variable f : Envelope -> Completion JsValue.
Variable g : JsValue -> JS unit.
Variable operation : jsstring.
Variable result : JsValue.

Hypothesis Hf : throws_errors f.
Hypothesis Hg : only_logs g.

(** A value handed to the caller is the default of the recovery step or
    what the projection made of one of the client's envelopes: the
    pipeline adds nothing of its own and alters nothing. *)
Lemma pipeline_values_origin (w : World) (v : JsValue) :
  In v (values (fst ((HeroService.subscribe apollo call
                      >>= Rx.map f
                      >>= Rx.tap g
                      >>= Rx.catchError
                            (HeroService.handleError operation result))%state w))) ->
  v = result \/
  exists x, In x (results (apollo call)) /\ f x = Normal v.
Proof.
  destruct (pipeline_cases apollo call f g operation result Hf Hg w)
    as [(e & m & _ & _ & ->) | [_ ->]]; cbn [fst values].
  - rewrite in_app_iff. intros [Hin | [<- | []]]; [right | now left].
    apply observe_all_origin in Hin. now apply project_all_origin in Hin.
  - intros Hin. right.
    apply observe_all_origin in Hin. now apply project_all_origin in Hin.
Qed.

End PipelineOrigin.

Lemma read_sole_field (field : jsstring) (x : Envelope) (y : JsValue) :
  data x = Some [(field, y)] -> Js.Get (data_value x) field = Normal y.
Proof.
  intros H. apply carried_field. exists [(field, y)]. split; [exact H|].
  simpl. now rewrite eqb_refl.
Qed.

(** With a conformant client, a value handed to the caller is the default
    of the operation or a payload of the wire contract. *)
Lemma conformant_origin (apollo : Gateway) (call : GatewayCall)
      (f : Envelope -> Completion JsValue) (v result : JsValue) :
  wire_conformant apollo ->
  (forall x y, data x = Some [(field_name (root (document_of call)), y)] ->
               f x = Normal y) ->
  v = result \/ (exists x, In x (results (apollo call)) /\ f x = Normal v) ->
  v = result \/ wire_payload (document_of call) v = true.
Proof.
  intros Hconf Hread [-> | (x & Hin & Hfx)]; [now left | right].
  pose proof (Hconf call) as Hc. rewrite Forall_forall in Hc.
  destruct (Hc x Hin) as (y & Hd & Hy).
  rewrite (Hread x y Hd) in Hfx. now injection Hfx as <-.
Qed.

(** C7, amended.  For every client that follows the wire contract (Hero
    records in full; [null] for a record the server does not have; a
    boolean or a number as the acknowledgement of [deleteHero]), every
    operation and every starting state, each value handed to the caller is:
    for [getHeroes] and [searchHeroes], a sequence of full Hero records
    (the empty sequence included); for [getHero], [getHeroNo404], [addHero]
    and [updateHero], a full Hero record, [null] or [undefined]; for
    [deleteHero], the server's acknowledgement (a boolean or a number) or
    [undefined]. *)
Theorem conformant_client_exposes_no_partial_record
        (apollo : Gateway) (c : Call) (w : World) (v : JsValue) :
  wire_conformant apollo ->
  In v (values (fst (invoke apollo c w))) ->
  resolved_value_ok c v.
Proof.
  intros Hconf.
  destruct c as [|i|i|term|h|h|h]; simpl resolved_value_ok.
  - as_pipeline. intros Hin.
    apply pipeline_values_origin in Hin; auto with service.
    apply conformant_origin in Hin; [|assumption|apply read_sole_field].
    destruct Hin as [-> | H]; [reflexivity | exact H].
  - (* getHeroNo404: the field it reads is not in a conformant envelope *)
    as_pipeline. intros Hin.
    apply pipeline_values_origin in Hin; auto with service.
    destruct Hin as [-> | (x & Hin & Hfx)]; [now right; right|].
    pose proof (Hconf (WatchQuery Gql.heroQuery JUndefined)) as Hc.
    rewrite Forall_forall in Hc. destruct (Hc x Hin) as (y & Hd & _).
    unfold data_value in Hfx. rewrite Hd in Hfx. discriminate Hfx.
  - as_pipeline. intros Hin.
    apply pipeline_values_origin in Hin; auto with service.
    apply conformant_origin in Hin; [|assumption|apply read_sole_field].
    destruct Hin as [-> | H]; [now right; right|].
    change (is_hero v || match v with JNull => true | _ => false end = true) in H.
    apply orb_true_iff in H. destruct H as [H | H]; [now left|].
    right; left. now destruct v.
  - simpl invoke.
    destruct (forallb JsString.is_white_space term) eqn:Hblank.
    + rewrite (searchHeroes_blank_term apollo _ Hblank). simpl.
      intros [<- | []]. reflexivity.
    + rewrite (searchHeroes_proper_term apollo _ Hblank). intros Hin.
      apply pipeline_values_origin in Hin; auto with service.
      apply conformant_origin in Hin; [|assumption|apply read_sole_field].
      destruct Hin as [-> | H]; [reflexivity | exact H].
  - as_pipeline. intros Hin.
    apply pipeline_values_origin in Hin; auto with service.
    apply conformant_origin in Hin; [|assumption|apply read_sole_field].
    destruct Hin as [-> | H]; [now right; right|].
    change (is_hero v || match v with JNull => true | _ => false end = true) in H.
    apply orb_true_iff in H. destruct H as [H | H]; [now left|].
    right; left. now destruct v.
  - as_pipeline. intros Hin.
    apply pipeline_values_origin in Hin; auto with service.
    apply conformant_origin in Hin; [|assumption|apply read_sole_field].
    destruct Hin as [-> | H]; [now left|].
    right. destruct v; try discriminate; eauto.
  - as_pipeline. intros Hin.
    apply pipeline_values_origin in Hin; auto with service.
    apply conformant_origin in Hin; [|assumption|apply read_sole_field].
    destruct Hin as [-> | H]; [now right; right|].
    change (is_hero v || match v with JNull => true | _ => false end = true) in H.
    apply orb_true_iff in H. destruct H as [H | H]; [now left|].
    right; left. now destruct v.
Qed.

Lemma conformant_client_exposes_no_partial_record_witness :
  resolved_value_ok (GetHero 7) (hero_value bo) /\
  resolved_value_ok (GetHero 7) JNull /\
  resolved_value_ok GetHeroes (JArray [hero_value bo]) /\
  resolved_value_ok (AddHero bo) JUndefined /\
  resolved_value_ok (DeleteHero (AsNumber 1)) (JBool true).
Proof.
  split; [|split; [|split; [|split]]].
  - apply (conformant_client_exposes_no_partial_record
             (answering_only (lit "heroQuery") (hero_value bo)) (GetHero 7) idle).
    + apply answering_only_conformant. intros d E.
      unfold wire_payload. rewrite E. reflexivity.
    + simpl. left. reflexivity.
  - apply (conformant_client_exposes_no_partial_record
             (answering_only (lit "heroQuery") JNull) (GetHero 7) idle).
    + apply not_found_answer_conformant.
    + simpl. left. reflexivity.
  - apply (conformant_client_exposes_no_partial_record
             (answering_only (lit "heroesQuery") (JArray [hero_value bo]))
             GetHeroes idle).
    + apply answering_only_conformant. intros d E.
      unfold wire_payload. rewrite E. reflexivity.
    + simpl. left. reflexivity.
  - apply (conformant_client_exposes_no_partial_record
             (answering_only (lit "addHero") JNull) (AddHero bo) idle).
    + apply answering_only_conformant. intros d E.
      unfold wire_payload. rewrite E. reflexivity.
    + simpl. left. reflexivity.
  - apply (conformant_client_exposes_no_partial_record
             acknowledging_gateway (DeleteHero (AsNumber 1)) idle).
    + apply acknowledging_gateway_conformant.
    + simpl. left. reflexivity.
Defined.

(** * Further properties of the service *)

(** ** Operations only append, and do not look at the world *)

Lemma extend_nil (w : World) : extend w [] [] [] = w.
Proof. destruct w. unfold extend. simpl. now rewrite !app_nil_r. Qed.

Lemma extend_extend (w : World) ms cs rs ms' cs' rs' :
  extend (extend w ms cs rs) ms' cs' rs' =
  extend w (ms ++ ms') (cs ++ cs') (rs ++ rs').
Proof. unfold extend. simpl. now rewrite !app_assoc. Qed.

Lemma appends_ret {A} (a : A) : appends (St.ret a).
Proof. exists a, [], [], []. intros w. unfold St.ret. now rewrite extend_nil. Qed.

Lemma appends_bind {A B} (m : State A) (k : A -> State B) :
  appends m -> (forall a, appends (k a)) -> appends (St.bind m k).
Proof.
  intros (a & ms & cs & rs & Hm) Hk.
  destruct (Hk a) as (b & ms' & cs' & rs' & Hk').
  exists b, (ms ++ ms'), (cs ++ cs'), (rs ++ rs'). intros w.
  unfold St.bind. now rewrite Hm, Hk', extend_extend.
Qed.

Lemma appends_stmt_bind {A B} (m : JS A) (k : A -> JS B) :
  appends m -> (forall a, appends (k a)) -> appends (Stmt.bind m k).
Proof.
  intros Hm Hk. unfold Stmt.bind. apply appends_bind; [exact Hm|].
  intros [a|e]; [apply Hk | apply appends_ret].
Qed.

Lemma appends_exec {A} (m : State A) : appends m -> appends (Stmt.exec m).
Proof.
  intros Hm. unfold Stmt.exec. apply appends_bind; [exact Hm|].
  intros a. apply appends_ret.
Qed.

Lemma appends_log (m : jsstring) : appends (HeroService.log m).
Proof.
  exists tt, [lit "HeroService: " ++ m], [], []. intros w.
  unfold HeroService.log, HeroService.messageService_add, extend.
  now rewrite !app_nil_r.
Qed.

Lemma appends_console_error (e : JsValue) : appends (HeroService.console_error e).
Proof.
  exists tt, [], [e], []. intros w.
  unfold HeroService.console_error, extend. now rewrite !app_nil_r.
Qed.

Lemma appends_subscribe (apollo : Gateway) (call : GatewayCall) :
  appends (HeroService.subscribe apollo call).
Proof.
  exists (delivered (apollo call)), [], [], [call]. intros w.
  unfold HeroService.subscribe, extend. now rewrite !app_nil_r.
Qed.

Lemma appends_handleError (operation : jsstring) (result error : JsValue) :
  appends (HeroService.handleError operation result error).
Proof.
  unfold HeroService.handleError.
  apply appends_stmt_bind; [apply appends_exec, appends_console_error|]. intros _.
  apply appends_stmt_bind; [apply appends_ret|]. intros detail.
  apply appends_stmt_bind; [apply appends_ret|]. intros text.
  apply appends_stmt_bind; [apply appends_exec, appends_log|]. intros _.
  apply appends_ret.
Qed.

Lemma appends_map {A B} (f : A -> Completion B) (o : Observable A) :
  appends (Rx.map f o).
Proof. apply appends_ret. Qed.

Lemma appends_tap {A} (g : A -> JS unit) (o : Observable A) :
  (forall x, appends (g x)) -> appends (Rx.tap g o).
Proof.
  intros Hg. unfold Rx.tap. generalize (ending o).
  induction (values o) as [|x xs IH]; intros fin; simpl.
  - apply appends_ret.
  - apply appends_bind; [apply Hg|]. intros [u|e]; [|apply appends_ret].
    apply appends_bind; [apply IH|]. intros o'. apply appends_ret.
Qed.

Lemma appends_catchError {A} (selector : JsValue -> JS (Observable A))
      (o : Observable A) :
  (forall e, appends (selector e)) -> appends (Rx.catchError selector o).
Proof.
  intros Hs. unfold Rx.catchError. destruct (ending o); try apply appends_ret.
  apply appends_bind; [apply Hs|]. intros [o'|e']; apply appends_ret.
Qed.

Lemma appends_pipeline (apollo : Gateway) (call : GatewayCall)
      (f : Envelope -> Completion JsValue) (g : JsValue -> JS unit)
      (operation : jsstring) (result : JsValue) :
  (forall y, appends (g y)) ->
  appends (HeroService.subscribe apollo call
           >>= Rx.map f
           >>= Rx.tap g
           >>= Rx.catchError (HeroService.handleError operation result))%state.
Proof.
  intros Hg.
  apply appends_bind;
    [apply appends_bind; [apply appends_bind; [apply appends_subscribe|]|]|].
  - intros o. apply appends_map.
  - intros o. now apply appends_tap.
  - intros o. apply appends_catchError. intros e. apply appends_handleError.
Qed.

(** X1. Every operation is stateless and append-only: for every client and
    call there are a stream and lists of messages, console entries and
    client calls such that, from whatever world the operation starts, it
    hands that stream to the caller and leaves the world with exactly those
    entries appended.  Nothing already recorded is removed or changed, and
    nothing recorded earlier influences the result. *)
Theorem operations_only_append (apollo : Gateway) (c : Call) :
  exists o ms cs rs,
    forall w, invoke apollo c w = (o, extend w ms cs rs).
Proof.
  change (appends (invoke apollo c)).
  destruct c as [|i|i|term|h|h|h];
    try (as_pipeline; apply appends_pipeline; intros y;
         apply appends_exec, appends_log).
  - simpl invoke. unfold HeroService.searchHeroes, HeroService.watchQuery.
    destruct (negb _); [apply appends_ret|].
    apply appends_pipeline. intros y. apply appends_exec, appends_log.
  - as_pipeline. apply appends_pipeline. intros y.
    apply appends_stmt_bind; [apply appends_ret|]. intros hero_id.
    apply appends_stmt_bind; [apply appends_ret|]. intros text.
    apply appends_exec, appends_log.
Qed.

(** ** The call each operation issues *)

Lemma reaches_client_search (term : jsstring) :
  reaches_client (SearchHeroes term) = true ->
  forallb JsString.is_white_space term = false.
Proof. simpl. now destruct (forallb _ term). Qed.

(** X2. Every operation that gets past the search guard issues exactly one
    call to the client.  The call is a watched query for a query document
    and a mutation for a mutation document; every variable it carries is
    declared by its document; and it binds every variable the document
    requires, except for [getHeroNo404], whose call carries no variables
    although [heroQuery] requires [$id]. *)
Theorem each_operation_issues_one_call (apollo : Gateway) (c : Call) (w : World) :
  reaches_client c = true ->
  exists call,
    requests (snd (invoke apollo c w)) = requests w ++ [call] /\
    well_kinded call = true /\
    sends_only_declared call = true /\
    binds_required call = match c with GetHeroNo404 _ => false | _ => true end.
Proof.
  intros Hreach.
  destruct c as [|i|i|term|h|h|h];
    try (eexists; split;
         [ as_pipeline; apply pipeline_requests; auto with service
         | repeat split ]).
  apply reaches_client_search in Hreach. simpl invoke.
  rewrite searchHeroes_proper_term by assumption.
  eexists. split; [apply pipeline_requests; auto with service | repeat split].
Qed.

Lemma each_operation_issues_one_call_witness :
  exists call,
    requests (snd (invoke hero_gateway (DeleteHero (AsHero bo)) idle)) = [call] /\
    well_kinded call = true /\
    sends_only_declared call = true /\
    binds_required call = true.
Proof.
  apply (each_operation_issues_one_call hero_gateway (DeleteHero (AsHero bo)) idle).
  reflexivity.
Defined.

(** ** Diagnostics and values go together *)

Lemma exec_log_logs_one {A} (text : A -> jsstring) :
  logs_one_or_throws (fun x => Stmt.exec (HeroService.log (text x))).
Proof. intros x w. left. eexists. reflexivity. Qed.

Lemma addHero_tap_logs_one :
  logs_one_or_throws
    (fun hero : JsValue =>
       (hero_id <- Stmt.eval (Js.Get hero (lit "id")) ;;
        text <- Stmt.eval (Js.ToString hero_id) ;;
        Stmt.exec (HeroService.log (lit "added hero w/ id=" ++ text)))%js).
Proof.
  intros hero w. unfold Stmt.bind, Stmt.eval, Stmt.exec, St.bind, St.ret.
  destruct (Js.Get hero (lit "id")) as [i|e1]; [|right; eexists; reflexivity].
  destruct (Js.ToString i) as [t|e2]; [|right; eexists; reflexivity].
  left. eexists. reflexivity.
Qed.

Lemma observe_all_counts {A} (g : A -> JS unit) (ys : list A) (fin : Ending)
      (w : World) :
  logs_one_or_throws g ->
  exists added,
    messages (snd (Rx.observe_all g ys fin w)) = messages w ++ added /\
    List.length added = List.length (values (fst (Rx.observe_all g ys fin w))).
Proof.
  intros Hg. revert w. induction ys as [|y ys IH]; intros w; simpl.
  - exists []. now rewrite app_nil_r.
  - unfold St.bind. destruct (Hg y w) as [[m E] | [e E]]; rewrite E.
    + match goal with
      | |- context [Rx.observe_all g ys fin ?w1] =>
          destruct (IH w1) as (added & M & L);
          destruct (Rx.observe_all g ys fin w1) as [o w2]
      end.
      simpl in *. exists (m :: added). split.
      * now rewrite M, <- app_assoc.
      * simpl. now rewrite L.
    + exists []. simpl. now rewrite app_nil_r.
Qed.

Section PipelineReports.

Variable apollo : Gateway.
Variable call : GatewayCall.
Variable f : Envelope -> Completion JsValue.
Variable g : JsValue -> JS unit.
Variable operation : jsstring.
Variable result : JsValue.

Hypothesis Hf : throws_errors f.
Hypothesis Hg : only_logs g.

#[local] Notation pipeline :=
  (HeroService.subscribe apollo call
   >>= Rx.map f
   >>= Rx.tap g
   >>= Rx.catchError (HeroService.handleError operation result))%state.

Lemma pipeline_counts (w : World) :
  logs_one_or_throws g ->
  exists added,
    messages (snd (pipeline w)) = messages w ++ added /\
    List.length added = List.length (values (fst (pipeline w))).
Proof.
  intros Hone.
  destruct (pipeline_cases apollo call f g operation result Hf Hg w)
    as [(e & m & _ & _ & ->) | [_ ->]];
    match goal with
    | |- context [Rx.observe_all g ?ys ?fin ?w1] =>
        destruct (observe_all_counts g ys fin w1 Hone) as (added & M & L)
    end; simpl in M.
  - exists (added ++ [failure_message operation m]). simpl. split.
    + now rewrite M, app_assoc.
    + rewrite !length_app, L. reflexivity.
  - exists added. now split.
Qed.

Lemma pipeline_console_report (w : World) :
  console (snd (pipeline w)) = console w \/
  exists e detail before,
    console (snd (pipeline w)) = console w ++ [e] /\
    Js.Get e (lit "message") = Normal (JString detail) /\
    messages (snd (pipeline w)) =
    messages w ++ before ++ [failure_message operation detail].
Proof.
  destruct (attempt_logs_only apollo call f g Hg w) as [C _ (added & M & _)].
  simpl in C, M.
  destruct (pipeline_cases apollo call f g operation result Hf Hg w)
    as [(e & m & _ & Hm & ->) | [_ ->]].
  - right. exists e, m, added. simpl. repeat split.
    + now rewrite C.
    + exact Hm.
    + now rewrite M, app_assoc.
  - left. exact C.
Qed.

End PipelineReports.

(** X3. For every operation that gets past the search guard, every client
    and every starting world, the number of messages the operation records
    equals the number of values it hands to the caller: one success
    diagnostic for each value passed on, and one failure diagnostic for the
    default the recovery step hands over. *)
Theorem one_diagnostic_per_value (apollo : Gateway) (c : Call) (w : World) :
  reaches_client c = true ->
  exists added,
    messages (snd (invoke apollo c w)) = messages w ++ added /\
    List.length added = List.length (values (fst (invoke apollo c w))).
Proof.
  intros Hreach.
  destruct c as [|i|i|term|h|h|h];
    try (as_pipeline; apply pipeline_counts;
         auto using exec_log_logs_one, addHero_tap_logs_one with service;
         apply exec_log_logs_one).
  apply reaches_client_search in Hreach. simpl invoke.
  rewrite searchHeroes_proper_term by assumption.
  apply pipeline_counts; auto with service. apply exec_log_logs_one.
Qed.

Lemma one_diagnostic_per_value_witness :
  exists added,
    messages (snd (invoke hero_gateway (GetHeroNo404 7) idle)) = [] ++ added /\
    List.length added =
    List.length (values (fst (invoke hero_gateway (GetHeroNo404 7) idle))).
Proof.
  apply (one_diagnostic_per_value hero_gateway (GetHeroNo404 7) idle).
  reflexivity.
Defined.

(** X4. An operation calls [console.error] at most once.  When it does, the
    value it reports is an [Error] whose message is the detail of the last
    diagnostic recorded, a failure diagnostic under the operation name the
    handler was built with. *)
Theorem at_most_one_console_error (apollo : Gateway) (c : Call) (w : World) :
  console (snd (invoke apollo c w)) = console w \/
  exists e detail before,
    console (snd (invoke apollo c w)) = console w ++ [e] /\
    Js.Get e (lit "message") = Normal (JString detail) /\
    messages (snd (invoke apollo c w)) =
    messages w ++ before ++ [failure_message (handler_label c) detail].
Proof.
  destruct c as [|i|i|term|h|h|h]; simpl handler_label;
    try (as_pipeline; apply pipeline_console_report; auto with service).
  simpl invoke.
  destruct (forallb JsString.is_white_space term) eqn:Hblank.
  - rewrite (searchHeroes_blank_term apollo _ Hblank). left. reflexivity.
  - rewrite (searchHeroes_proper_term apollo _ Hblank).
    apply pipeline_console_report; auto with service.
Qed.

(** ** Complete runs of the operations whose side effect only logs *)

Lemma observe_all_logged {A} (text : A -> jsstring) (ys : list A) (fin : Ending)
      (w : World) :
  Rx.observe_all (fun y => Stmt.exec (HeroService.log (text y))) ys fin w =
  ({| values := ys; ending := fin |},
   {| messages := messages w ++ List.map (fun y => lit "HeroService: " ++ text y) ys;
      console := console w;
      requests := requests w |}).
Proof.
  revert w. induction ys as [|y ys IH]; intros w.
  - simpl. unfold St.ret. rewrite app_nil_r. now destruct w.
  - assert (Hstep : Stmt.exec (HeroService.log (text y)) w =
                    (Normal tt,
                     {| messages := messages w ++ [lit "HeroService: " ++ text y];
                        console := console w;
                        requests := requests w |})) by reflexivity.
    cbn [Rx.observe_all]. unfold St.bind at 1. rewrite Hstep.
    unfold St.bind at 1. rewrite IH. unfold St.ret.
    cbn [values ending messages console requests List.map].
    now rewrite <- app_assoc.
Qed.

Lemma project_all_truncated {A B} (f : A -> Completion B)
      (good : list A) (ys : list B) (bad : A) (rest : list A)
      (e : JsValue) (fin : Ending) :
  Forall2 (fun x y => f x = Normal y) good ys ->
  f bad = Throw e ->
  Rx.project_all f (good ++ bad :: rest) fin =
  {| values := ys; ending := Errored e |}.
Proof.
  intros Hgood Hbad.
  induction Hgood as [|x y xs ys' Hxy _ IH]; simpl.
  - now rewrite Hbad.
  - now rewrite Hxy, IH.
Qed.

Section LoggedPipeline.

Variable apollo : Gateway.
Variable call : GatewayCall.
Variable f : Envelope -> Completion JsValue.
Variable text : JsValue -> jsstring.
Variable operation : jsstring.
Variable result : JsValue.

#[local] Notation pipeline :=
  (HeroService.subscribe apollo call
   >>= Rx.map f
   >>= Rx.tap (fun y => Stmt.exec (HeroService.log (text y)))
   >>= Rx.catchError (HeroService.handleError operation result))%state.

(** When the projection succeeds on every envelope: every projected value
    is logged and handed on; a failure of the client's stream is then
    reported and replaced by the default. *)
Lemma pipeline_logged_run (w : World) (ys : list JsValue) :
  Forall2 (fun x y => f x = Normal y) (results (apollo call)) ys ->
  pipeline w =
  ({| values := ys ++ recovery_tail (outcome (apollo call)) result;
      ending := recovered_ending (outcome (apollo call)) |},
   {| messages :=
        messages w
        ++ List.map (fun y => lit "HeroService: " ++ text y) ys
        ++ failure_tail operation (outcome (apollo call));
      console := console w ++ console_tail (outcome (apollo call));
      requests := requests w ++ [call] |}).
Proof.
  intros Hys. rewrite pipeline_unfold.
  rewrite project_all_success with (1 := Hys). cbn [values ending].
  rewrite observe_all_logged. cbn [fst snd messages console requests].
  unfold delivered; cbn [ending].
  destruct (outcome (apollo call)) as [|err|];
    cbn [recovery_tail recovered_ending failure_tail console_tail].
  - rewrite recover_quiet by discriminate. now rewrite !app_nil_r.
  - erewrite recover_errored; [|reflexivity|reflexivity].
    cbn [values messages console requests]. now rewrite <- app_assoc.
  - rewrite recover_quiet by discriminate. now rewrite !app_nil_r.
Qed.

(** When the projection throws on an envelope: what came before is logged
    and handed on, the throw is reported and replaced by the default, and
    nothing the client delivers afterwards is looked at. *)
Lemma pipeline_logged_truncated (w : World) (good : list Envelope)
      (ys : list JsValue) (bad : Envelope) (rest : list Envelope)
      (e : JsValue) (detail : jsstring) :
  results (apollo call) = good ++ bad :: rest ->
  Forall2 (fun x y => f x = Normal y) good ys ->
  f bad = Throw e ->
  Js.Get e (lit "message") = Normal (JString detail) ->
  pipeline w =
  ({| values := ys ++ [result]; ending := Completed |},
   {| messages :=
        messages w
        ++ List.map (fun y => lit "HeroService: " ++ text y) ys
        ++ [failure_message operation detail];
      console := console w ++ [e];
      requests := requests w ++ [call] |}).
Proof.
  intros Hr Hgood Hbad Hm. rewrite pipeline_unfold, Hr.
  rewrite project_all_truncated with (1 := Hgood) (2 := Hbad). cbn [values ending].
  rewrite observe_all_logged. cbn [fst snd messages console requests].
  erewrite recover_errored; [|reflexivity|exact Hm].
  cbn [values messages console requests]. now rewrite <- app_assoc.
Qed.

End LoggedPipeline.

Lemma carried_payloads (field : jsstring) (envs : list Envelope)
      (payloads : list JsValue) :
  Forall2 (fun env v => carries field v env) envs payloads ->
  Forall2 (fun x y => Js.Get (data_value x) field = Normal y) envs payloads.
Proof.
  induction 1 as [|env v envs vs Hc _ IH]; constructor; [|exact IH].
  now apply carried_field.
Qed.

Lemma missing_payloads (field : jsstring) (envs : list Envelope) :
  Forall (fun env => exists properties,
              data env = Some properties /\ Js.lookup field properties = None)
         envs ->
  Forall2 (fun x y => Js.Get (data_value x) field = Normal y)
          envs (repeat JUndefined (List.length envs)).
Proof.
  induction 1 as [|env envs (properties & Hd & Hl) _ IH]; simpl; constructor;
    [|exact IH].
  unfold data_value. rewrite Hd. simpl. now rewrite Hl.
Qed.

(** ** Reading *)

(** X5. When the [data] mapping of every envelope lacks the [heroes] field,
    [getHeroes] does not fall back to the empty sequence: for each envelope
    it hands [undefined] to the caller and logs "fetched heroes"; the
    recovery step is not involved unless the client's stream itself fails. *)
Theorem getHeroes_missing_field_hands_undefined (apollo : Gateway) (w : World) :
  let call := WatchQuery Gql.heroesQuery JUndefined in
  let n := List.length (results (apollo call)) in
  Forall (fun env => exists properties,
              data env = Some properties /\
              Js.lookup (lit "heroes") properties = None)
         (results (apollo call)) ->
  HeroService.getHeroes apollo w =
  ({| values := repeat JUndefined n
                ++ recovery_tail (outcome (apollo call)) (JArray []);
      ending := recovered_ending (outcome (apollo call)) |},
   {| messages :=
        messages w
        ++ repeat (lit "HeroService: fetched heroes") n
        ++ failure_tail (lit "getHeroes") (outcome (apollo call));
      console := console w ++ console_tail (outcome (apollo call));
      requests := requests w ++ [call] |}).
Proof.
  intros call n H. apply missing_payloads in H.
  etransitivity.
  - exact (pipeline_logged_run apollo call
             (fun result => Js.Get (data_value result) (lit "heroes"))
             (fun _ => lit "fetched heroes") (lit "getHeroes") (JArray [])
             w (repeat JUndefined n) H).
  - now rewrite map_repeat.
Qed.

Lemma getHeroes_missing_field_hands_undefined_witness :
  fst (HeroService.getHeroes (answering_gateway (envelope (lit "hero") JNull)) idle) =
  {| values := [JUndefined]; ending := Completed |} /\
  messages (snd (HeroService.getHeroes
                   (answering_gateway (envelope (lit "hero") JNull)) idle)) =
  [lit "HeroService: fetched heroes"].
Proof.
  rewrite (getHeroes_missing_field_hands_undefined
             (answering_gateway (envelope (lit "hero") JNull)) idle).
  - split; reflexivity.
  - repeat constructor. exists [(lit "hero", JNull)]. split; reflexivity.
Defined.

(** X6. [searchHeroes] with a term that passes the guard hands on, for each
    envelope, whatever its [data.search] holds, and logs for each the
    diagnostic "found heroes matching" followed by the term in double quotes,
    the term being the one it was given, untrimmed.  If the client's stream
    fails afterwards, the failure is reported under "searchHeroes" and the
    empty sequence is handed over. *)
Theorem searchHeroes_run (apollo : Gateway) (term : jsstring)
        (payloads : list JsValue) (w : World) :
  let call := WatchQuery Gql.searchQuery (JObject [(lit "q", JString term)]) in
  forallb JsString.is_white_space term = false ->
  Forall2 (fun env v => carries (lit "search") v env)
          (results (apollo call)) payloads ->
  HeroService.searchHeroes apollo term w =
  ({| values := payloads ++ recovery_tail (outcome (apollo call)) (JArray []);
      ending := recovered_ending (outcome (apollo call)) |},
   {| messages :=
        messages w
        ++ List.map (fun _ => lit "HeroService: found heroes matching "
                                ++ dquote ++ term ++ dquote) payloads
        ++ failure_tail (lit "searchHeroes") (outcome (apollo call));
      console := console w ++ console_tail (outcome (apollo call));
      requests := requests w ++ [call] |}).
Proof.
  intros call Hblank H. apply carried_payloads in H.
  rewrite searchHeroes_proper_term by assumption.
  exact (pipeline_logged_run apollo call
           (fun result => Js.Get (data_value result) (lit "search"))
           (fun _ => lit "found heroes matching " ++ dquote ++ term ++ dquote)
           (lit "searchHeroes") (JArray []) w payloads H).
Qed.

Lemma searchHeroes_run_witness :
  fst (HeroService.searchHeroes
         (answering_gateway (envelope (lit "search") (JArray [hero_value bo])))
         (lit " Bo ") idle) =
  {| values := [JArray [hero_value bo]]; ending := Completed |} /\
  messages (snd (HeroService.searchHeroes
                   (answering_gateway
                      (envelope (lit "search") (JArray [hero_value bo])))
                   (lit " Bo ") idle)) =
  [lit "HeroService: found heroes matching " ++ dquote ++ lit " Bo " ++ dquote].
Proof.
  rewrite (searchHeroes_run
             (answering_gateway (envelope (lit "search") (JArray [hero_value bo])))
             (lit " Bo ") [JArray [hero_value bo]] idle).
  - split; reflexivity.
  - reflexivity.
  - repeat constructor.
    exists [(lit "search", JArray [hero_value bo])]. split; reflexivity.
Defined.

(** X7. [getHero] never treats a missing record as a failure: for each
    envelope it hands on whatever [data.hero] holds, [null] and [undefined]
    included, and logs "fetched hero id=<id>" when that value is truthy and
    "did not find hero id=<id>" otherwise.  Only a failure of the client's
    stream is reported, under "getHero id=<id>", and replaced by
    [undefined]. *)
Theorem getHero_run (apollo : Gateway) (i : Z) (payloads : list JsValue)
        (w : World) :
  let call := WatchQuery Gql.heroQuery (JObject [(lit "id", JNumber i)]) in
  Forall2 (fun env v => carries (lit "hero") v env)
          (results (apollo call)) payloads ->
  HeroService.getHero apollo i w =
  ({| values := payloads ++ recovery_tail (outcome (apollo call)) JUndefined;
      ending := recovered_ending (outcome (apollo call)) |},
   {| messages :=
        messages w
        ++ List.map (lookup_diagnostic i) payloads
        ++ failure_tail (lit "getHero id=" ++ JsString.of_Z i)
             (outcome (apollo call));
      console := console w ++ console_tail (outcome (apollo call));
      requests := requests w ++ [call] |}).
Proof.
  intros call H. apply carried_payloads in H.
  exact (pipeline_logged_run apollo call
           (fun result => Js.Get (data_value result) (lit "hero"))
           (fun h => (if Js.ToBoolean h then lit "fetched" else lit "did not find")
                     ++ lit " hero id=" ++ JsString.of_Z i)
           (lit "getHero id=" ++ JsString.of_Z i) JUndefined w payloads H).
Qed.

Lemma getHero_run_witness :
  HeroService.getHero (answering_gateway (envelope (lit "hero") JNull)) 7 idle =
  ({| values := [JNull]; ending := Completed |},
   {| messages := [lit "HeroService: did not find hero id=7"];
      console := [];
      requests := [WatchQuery Gql.heroQuery (JObject [(lit "id", JNumber 7)])] |}).
Proof.
  rewrite (getHero_run (answering_gateway (envelope (lit "hero") JNull)) 7
             [JNull] idle).
  - reflexivity.
  - repeat constructor. exists [(lit "hero", JNull)]. split; reflexivity.
Defined.

(** X8. When the envelopes carry a [heroes] array (the shape of the listing
    query), [getHeroNo404] hands on the first element of each array, or
    [undefined] for an empty array, whatever id it was called with: the id
    appears in the diagnostics only ("fetched" or "did not find hero
    id=<id>") and is never compared with the record. *)
Theorem getHeroNo404_hands_first_of_listing
        (apollo : Gateway) (i : Z) (listings : list (list JsValue)) (w : World) :
  let call := WatchQuery Gql.heroQuery JUndefined in
  let firsts := List.map (fun heroes => nth 0 heroes JUndefined) listings in
  Forall2 (fun env heroes => carries (lit "heroes") (JArray heroes) env)
          (results (apollo call)) listings ->
  HeroService.getHeroNo404 apollo i w =
  ({| values := firsts ++ recovery_tail (outcome (apollo call)) JUndefined;
      ending := recovered_ending (outcome (apollo call)) |},
   {| messages :=
        messages w
        ++ List.map (lookup_diagnostic i) firsts
        ++ failure_tail (lit "getHero id=" ++ JsString.of_Z i)
             (outcome (apollo call));
      console := console w ++ console_tail (outcome (apollo call));
      requests := requests w ++ [call] |}).
Proof.
  intros call firsts H.
  assert (Hf : Forall2
                 (fun x y =>
                    Js.bind (Js.Get (data_value x) (lit "heroes"))
                      (fun heroes => Js.Get heroes (lit "0")) = Normal y)
                 (results (apollo call)) firsts).
  { subst firsts.
    induction H as [|env heroes envs hs Hc _ IH]; simpl; constructor; [|exact IH].
    rewrite (carried_field env (lit "heroes") (JArray heroes) Hc). reflexivity. }
  exact (pipeline_logged_run apollo call
           (fun result =>
              Js.bind (Js.Get (data_value result) (lit "heroes"))
                (fun heroes => Js.Get heroes (lit "0")))
           (fun h => (if Js.ToBoolean h then lit "fetched" else lit "did not find")
                     ++ lit " hero id=" ++ JsString.of_Z i)
           (lit "getHero id=" ++ JsString.of_Z i) JUndefined w firsts Hf).
Qed.

Lemma getHeroNo404_hands_first_of_listing_witness :
  fst (HeroService.getHeroNo404
         (answering_gateway (envelope (lit "heroes") (JArray [hero_value bo])))
         12 idle) =
  {| values := [hero_value bo]; ending := Completed |} /\
  messages (snd (HeroService.getHeroNo404
                   (answering_gateway
                      (envelope (lit "heroes") (JArray [hero_value bo])))
                   12 idle)) =
  [lit "HeroService: fetched hero id=12"].
Proof.
  rewrite (getHeroNo404_hands_first_of_listing
             (answering_gateway (envelope (lit "heroes") (JArray [hero_value bo])))
             12 [[hero_value bo]] idle).
  - split; reflexivity.
  - repeat constructor.
    exists [(lit "heroes", JArray [hero_value bo])]. split; reflexivity.
Defined.

(** X9. Once one envelope has [data: null], a watched listing is over: what
    [getHeroes] handed on for the envelopes before it stays, the throw of
    the mapping step is reported under "getHeroes", the empty sequence is
    handed over and the stream completes.  Whatever the client delivers
    after that envelope, valid results included, never reaches the caller,
    and a later failure of the client is not reported. *)
Theorem getHeroes_stops_at_first_null_data
        (apollo : Gateway) (w : World)
        (good : list Envelope) (payloads : list JsValue)
        (bad : Envelope) (rest : list Envelope) :
  let call := WatchQuery Gql.heroesQuery JUndefined in
  results (apollo call) = good ++ bad :: rest ->
  Forall2 (fun env v => carries (lit "heroes") v env) good payloads ->
  data bad = None ->
  HeroService.getHeroes apollo w =
  ({| values := payloads ++ [JArray []]; ending := Completed |},
   {| messages :=
        messages w
        ++ List.map (fun _ => lit "HeroService: fetched heroes") payloads
        ++ [failure_message (lit "getHeroes") (Js.cannot_read (lit "heroes") JNull)];
      console := console w ++ [Js.TypeError (Js.cannot_read (lit "heroes") JNull)];
      requests := requests w ++ [call] |}).
Proof.
  intros call Hr Hgood Hbad. apply carried_payloads in Hgood.
  exact (pipeline_logged_truncated apollo call
           (fun result => Js.Get (data_value result) (lit "heroes"))
           (fun _ => lit "fetched heroes") (lit "getHeroes") (JArray [])
           w good payloads bad rest _ _ Hr Hgood
           (null_data_throws bad (lit "heroes") Hbad) eq_refl).
Qed.

Lemma getHeroes_stops_at_first_null_data_witness :
  fst (HeroService.getHeroes
         (fun _ => {| results := [envelope (lit "heroes") (JArray []);
                                  {| data := None; errors := [] |};
                                  envelope (lit "heroes") (JArray [hero_value bo])];
                      outcome := Live |})
         idle) =
  {| values := [JArray []; JArray []]; ending := Completed |}.
Proof.
  rewrite (getHeroes_stops_at_first_null_data
             (fun _ => {| results := [envelope (lit "heroes") (JArray []);
                                      {| data := None; errors := [] |};
                                      envelope (lit "heroes") (JArray [hero_value bo])];
                          outcome := Live |})
             idle
             [envelope (lit "heroes") (JArray [])] [JArray []]
             {| data := None; errors := [] |}
             [envelope (lit "heroes") (JArray [hero_value bo])]).
  - reflexivity.
  - reflexivity.
  - repeat constructor. exists [(lit "heroes", JArray [])]. split; reflexivity.
  - reflexivity.
Defined.

(** ** Writing *)

(** X10. When the client answers the [addHero] mutation with a created
    record, [addHero] hands that record to the caller and logs "added hero
    w/ id=" followed by the id of the created record, the server's, not the
    one of the hero it was given; the mutation it sent carries the name of
    that hero and nothing else. *)
Theorem addHero_reports_the_created_record
        (apollo : Gateway) (h created : Hero) (w : World) :
  let call :=
    Mutate Gql.addHero
      (JObject [(lit "input", JObject [(lit "name", JString (name h))])]) in
  apollo call =
  {| results := [envelope (lit "addHero") (hero_value created)];
     outcome := Done |} ->
  HeroService.addHero apollo h w =
  ({| values := [hero_value created]; ending := Completed |},
   {| messages :=
        messages w ++ [lit "HeroService: added hero w/ id=" ++ JsString.of_Z (id created)];
      console := console w;
      requests := requests w ++ [call] |}).
Proof.
  intros call H.
  unfold HeroService.addHero, HeroService.mutate, HeroService.subscribe, St.bind,
    Rx.map, Rx.tap, St.ret.
  fold call. rewrite H. reflexivity.
Qed.

Lemma addHero_reports_the_created_record_witness :
  messages (snd (HeroService.addHero
                   (answering_gateway
                      (envelope (lit "addHero")
                         (hero_value {| id := 21; name := lit "Bo" |})))
                   bo idle)) =
  [lit "HeroService: added hero w/ id=21"].
Proof.
  rewrite (addHero_reports_the_created_record
             (answering_gateway
                (envelope (lit "addHero")
                   (hero_value {| id := 21; name := lit "Bo" |})))
             bo {| id := 21; name := lit "Bo" |} idle).
  - reflexivity.
  - reflexivity.
Defined.

(** X11. When the first envelope of the client holds no created record
    ([data.addHero] is [undefined] or [null]), the success diagnostic of
    [addHero] throws while reading [hero.id]: nothing is logged as added,
    the throw is reported under "addHero", and the caller receives
    [undefined] alone. *)
Theorem addHero_without_created_record_recovers
        (apollo : Gateway) (h : Hero) (w : World)
        (first : Envelope) (rest : list Envelope) (v : JsValue) :
  let call :=
    Mutate Gql.addHero
      (JObject [(lit "input", JObject [(lit "name", JString (name h))])]) in
  results (apollo call) = first :: rest ->
  Js.Get (data_value first) (lit "addHero") = Normal v ->
  v = JUndefined \/ v = JNull ->
  HeroService.addHero apollo h w =
  ({| values := [JUndefined]; ending := Completed |},
   {| messages :=
        messages w ++ [failure_message (lit "addHero") (Js.cannot_read (lit "id") v)];
      console := console w ++ [Js.TypeError (Js.cannot_read (lit "id") v)];
      requests := requests w ++ [call] |}).
Proof.
  intros call Hr Hget Hv. as_pipeline. fold call.
  rewrite pipeline_unfold, Hr. cbn [Rx.project_all]. rewrite Hget.
  destruct Hv as [-> | ->]; reflexivity.
Qed.

Lemma addHero_without_created_record_recovers_witness :
  HeroService.addHero (answering_gateway (envelope (lit "addHero") JNull)) bo idle =
  ({| values := [JUndefined]; ending := Completed |},
   {| messages :=
        [lit "HeroService: addHero failed: Cannot read property 'id' of null"];
      console := [Js.TypeError (lit "Cannot read property 'id' of null")];
      requests :=
        [Mutate Gql.addHero
           (JObject [(lit "input", JObject [(lit "name", JString (lit "Bo"))])])] |}).
Proof.
  rewrite (addHero_without_created_record_recovers
             (answering_gateway (envelope (lit "addHero") JNull)) bo idle
             (envelope (lit "addHero") JNull) [] JNull).
  - reflexivity.
  - reflexivity.
  - reflexivity.
  - right. reflexivity.
Defined.

(** X12. [deleteHero] hands on, for each envelope, whatever the server
    acknowledged under [data.deleteHero], and logs "deleted hero id=<id>"
    for each without looking at it: a refusal ([false]) is logged as a
    deletion all the same.  Only a failure of the client's stream is
    reported, under "deleteHero", and replaced by [undefined]. *)
Theorem deleteHero_run (apollo : Gateway) (hero : HeroOrNumber)
        (acknowledgements : list JsValue) (w : World) :
  let i := match hero with AsNumber n => n | AsHero h => id h end in
  let call := Mutate Gql.deleteHero (JObject [(lit "id", JNumber i)]) in
  Forall2 (fun env v => carries (lit "deleteHero") v env)
          (results (apollo call)) acknowledgements ->
  HeroService.deleteHero apollo hero w =
  ({| values := acknowledgements ++ recovery_tail (outcome (apollo call)) JUndefined;
      ending := recovered_ending (outcome (apollo call)) |},
   {| messages :=
        messages w
        ++ List.map (fun _ => lit "HeroService: deleted hero id=" ++ JsString.of_Z i)
             acknowledgements
        ++ failure_tail (lit "deleteHero") (outcome (apollo call));
      console := console w ++ console_tail (outcome (apollo call));
      requests := requests w ++ [call] |}).
Proof.
  intros i call H. apply carried_payloads in H.
  exact (pipeline_logged_run apollo call
           (fun result => Js.Get (data_value result) (lit "deleteHero"))
           (fun _ => lit "deleted hero id=" ++ JsString.of_Z i)
           (lit "deleteHero") JUndefined w acknowledgements H).
Qed.

Lemma deleteHero_run_witness :
  HeroService.deleteHero
    (answering_gateway (envelope (lit "deleteHero") (JBool false)))
    (AsNumber 404) idle =
  ({| values := [JBool false]; ending := Completed |},
   {| messages := [lit "HeroService: deleted hero id=404"];
      console := [];
      requests := [Mutate Gql.deleteHero (JObject [(lit "id", JNumber 404)])] |}).
Proof.
  rewrite (deleteHero_run
             (answering_gateway (envelope (lit "deleteHero") (JBool false)))
             (AsNumber 404) [JBool false] idle).
  - reflexivity.
  - repeat constructor.
    exists [(lit "deleteHero", JBool false)]. split; reflexivity.
Defined.

(** X13. [updateHero] hands on, for each envelope, whatever the server
    returned under [data.updateHero], be it a record other than the one
    sent, and logs "updated hero id=<id>" with the id of the hero it was
    given.  A failure of the client's stream is reported under "addHero"
    and replaced by [undefined]. *)
Theorem updateHero_run (apollo : Gateway) (h : Hero)
        (payloads : list JsValue) (w : World) :
  let call := Mutate Gql.updateHero (update_variables (id h) (name h)) in
  Forall2 (fun env v => carries (lit "updateHero") v env)
          (results (apollo call)) payloads ->
  HeroService.updateHero apollo h w =
  ({| values := payloads ++ recovery_tail (outcome (apollo call)) JUndefined;
      ending := recovered_ending (outcome (apollo call)) |},
   {| messages :=
        messages w
        ++ List.map (fun _ => lit "HeroService: updated hero id=" ++ JsString.of_Z (id h))
             payloads
        ++ failure_tail (lit "addHero") (outcome (apollo call));
      console := console w ++ console_tail (outcome (apollo call));
      requests := requests w ++ [call] |}).
Proof.
  intros call H. apply carried_payloads in H.
  exact (pipeline_logged_run apollo call
           (fun result => Js.Get (data_value result) (lit "updateHero"))
           (fun _ => lit "updated hero id=" ++ JsString.of_Z (id h))
           (lit "addHero") JUndefined w payloads H).
Qed.

Lemma updateHero_run_witness :
  HeroService.updateHero
    (answering_gateway
       (envelope (lit "updateHero") (hero_value {| id := 9; name := lit "Al" |})))
    bo idle =
  ({| values := [hero_value {| id := 9; name := lit "Al" |}]; ending := Completed |},
   {| messages := [lit "HeroService: updated hero id=7"];
      console := [];
      requests := [Mutate Gql.updateHero (update_variables 7 (lit "Bo"))] |}).
Proof.
  rewrite (updateHero_run
             (answering_gateway
                (envelope (lit "updateHero")
                   (hero_value {| id := 9; name := lit "Al" |})))
             bo [hero_value {| id := 9; name := lit "Al" |}] idle).
  - reflexivity.
  - repeat constructor.
    exists [(lit "updateHero", hero_value {| id := 9; name := lit "Al" |})].
    split; reflexivity.
Defined.

(** ** The recovery handler on values that are not [Error]s *)

(** X14. The handler copes with any thrown value other than [undefined] and
    [null]: reading its [message] does not throw, and whenever that message
    converts to a string the handler reports the value on the console, logs
    "<operation> failed: <text>" and continues with the default.  A value
    without a [message], a thrown string for one, is reported with the
    detail "undefined". *)
Theorem handleError_reports_any_thrown_value
        (operation : jsstring) (result error : JsValue) (w : World) :
  error <> JUndefined ->
  error <> JNull ->
  exists detail,
    Js.Get error (lit "message") = Normal detail /\
    (forall text,
        Js.ToString detail = Normal text ->
        HeroService.handleError operation result error w =
        (Normal {| values := [result]; ending := Completed |},
         {| messages := messages w ++ [failure_message operation text];
            console := console w ++ [error];
            requests := requests w |})) /\
    (detail = JUndefined ->
     messages (snd (HeroService.handleError operation result error w)) =
     messages w ++ [failure_message operation (lit "undefined")]).
Proof.
  intros Hu Hn.
  assert (Hget : exists detail, Js.Get error (lit "message") = Normal detail).
  { destruct error; try (eexists; reflexivity); contradiction. }
  destruct Hget as [detail Hget]. exists detail.
  assert (Hrun : forall text,
             Js.ToString detail = Normal text ->
             HeroService.handleError operation result error w =
             (Normal {| values := [result]; ending := Completed |},
              {| messages := messages w ++ [failure_message operation text];
                 console := console w ++ [error];
                 requests := requests w |})).
  { intros text Htext.
    unfold HeroService.handleError, Stmt.bind, Stmt.eval, Stmt.exec, Stmt.ret,
      St.bind, St.ret.
    cbn [HeroService.console_error]. rewrite Hget, Htext. reflexivity. }
  split; [exact Hget|]. split; [exact Hrun|].
  intros ->. now rewrite (Hrun (lit "undefined") eq_refl).
Qed.

Lemma handleError_reports_any_thrown_value_witness :
  messages (snd (HeroService.handleError (lit "getHeroes") (JArray [])
                   (JString (lit "boom")) idle)) =
  [lit "HeroService: getHeroes failed: undefined"].
Proof.
  destruct (handleError_reports_any_thrown_value
              (lit "getHeroes") (JArray []) (JString (lit "boom")) idle)
    as (detail & Hget & _ & Hmissing); try discriminate.
  injection Hget as <-.
  exact (Hmissing eq_refl).
Defined.
